(** * Runtime primitives of the generated C++ kernels (cpp_prefix.h)

    A shallow embedding of [torch/_inductor/codegen/cpp_prefix.h]:
    the generic modulo, the uniform conversion of a 32-bit random word,
    the two counter-based random draws, the integer alias of a scalar
    type, the compare-and-swap accumulation loop and the conversions of
    flags to float masks.

    Floating-point values are the [spec_float]s of the Standard Library
    (precision 24 and maximal exponent 128 for [float], 53 and 1024 for
    [double]); machine integers are [Z] with their ranges written out;
    memory is a finite map from addresses to values, arrays are lists.

    The first part holds every definition, the second part the lemmas
    and theorems about them. *)

From Stdlib Require Import ZArith Lia Bool Zpower String.
From Stdlib Require Import Floats.FloatClass Floats.SpecFloat.
From stdpp Require Import base option list gmap.

Local Open Scope Z_scope.

(** * Part I: definitions *)

#[global] Instance spec_float_eq_dec : EqDecision spec_float.
Proof. solve_decision. Defined.

(** ** IEEE-754 binary32, the C++ [float] *)

Module B32.

Definition prec : Z := 24.
Definition emax : Z := 128.

(** [static_cast<float>(n)] of an integer, and the conversion done by
    [cvtepi32_ps] on one lane: round to nearest, ties to even. *)
Definition of_Z (n : Z) : spec_float := binary_normalize prec emax n 0 false.

Definition mul : spec_float -> spec_float -> spec_float := SFmul prec emax.
Definition add : spec_float -> spec_float -> spec_float := SFadd prec emax.

Definition leb : spec_float -> spec_float -> bool := SFleb.
Definition ltb : spec_float -> spec_float -> bool := SFltb.

Definition zero : spec_float := S754_zero false.
Definition one : spec_float := S754_finite false 8388608 (-23).

(** The 32-bit pattern of a value: sign, biased exponent, fraction.
    A finite value is expected in canonical form (a 24-bit mantissa, or
    exponent -149 for a subnormal), which is what the operations above
    produce.  A NaN gets the default quiet pattern. *)
Definition to_bits (x : spec_float) : Z :=
  match x with
  | S754_zero s => if s then 0x80000000 else 0
  | S754_infinity s => if s then 0xFF800000 else 0x7F800000
  | S754_nan => 0x7FC00000
  | S754_finite s m e =>
      let sign := if s then 0x80000000 else 0 in
      if Z.pos m <? 0x800000
      then Z.lor sign (Z.pos m)
      else Z.lor sign (Z.lor (Z.shiftl (e + 150) 23) (Z.pos m - 0x800000))
  end.

End B32.

(** The two patterns a mask lane may hold. *)
Definition all_ones : Z := 0xFFFFFFFF.
Definition all_zeros : Z := 0.
Definition is_mask (w : Z) : bool := (w =? all_ones) || (w =? all_zeros).

(** ** GenericModulo: [mod] *)

(** The integral instances of [template <typename T> T mod(T a, T b)]. *)
Inductive int_type :=
  bool_t | int8_t | uint8_t | int16_t | uint16_t | int32_t | uint32_t | int64_t | uint64_t.

Definition is_signed (ty : int_type) : bool :=
  match ty with
  | int8_t | int16_t | int32_t | int64_t => true
  | _ => false
  end.

Definition bits (ty : int_type) : Z :=
  match ty with
  | bool_t => 1
  | int8_t | uint8_t => 8
  | int16_t | uint16_t => 16
  | int32_t | uint32_t => 32
  | int64_t | uint64_t => 64
  end.

Definition int_min (ty : int_type) : Z :=
  if is_signed ty then - 2 ^ (bits ty - 1) else 0.

Definition int_max (ty : int_type) : Z :=
  if is_signed ty then 2 ^ (bits ty - 1) - 1 else 2 ^ bits ty - 1.

Definition in_range (ty : int_type) (z : Z) : Prop := int_min ty <= z <= int_max ty.

(** Integral promotion of the operands of [%]: every type narrower than
    [int] is promoted to [int]. *)
Definition promote (ty : int_type) : int_type :=
  if bits ty <? 32 then int32_t else ty.

(** Conversion of the promoted result back to [T] by the [return]. *)
Definition convert (ty : int_type) (z : Z) : Z :=
  match ty with
  | bool_t => if z =? 0 then 0 else 1
  | _ =>
      if is_signed ty
      then (z + 2 ^ (bits ty - 1)) mod 2 ^ bits ty - 2 ^ (bits ty - 1)
      else z mod 2 ^ bits ty
  end.

(** The built-in [a % b] at a promoted type.  [None] is undefined
    behaviour: a zero divisor, or a quotient that is not representable. *)
Definition builtin_rem (ty : int_type) (a b : Z) : option Z :=
  if b =? 0 then None
  else if is_signed ty && (a =? int_min ty) && (b =? -1) then None
  else Some (Z.rem a b).

(** The quotient [a / b] does not fit the type of the operation: the
    smallest [int] or [long] divided by -1. *)
Definition quotient_overflows (ty : int_type) (a b : Z) : Prop :=
  (ty = int32_t \/ ty = int64_t) /\ a = int_min ty /\ b = -1.

(** [template <typename T> inline T mod(T a, T b) { return a % b; }] *)
Definition mod_int (ty : int_type) (a b : Z) : option Z :=
  r ← builtin_rem (promote ty) a b; Some (convert ty r).

Section Fmod.
Variables prec emax : Z.

(** [std::fmod] of the C library, which [mod<float>] and [mod<double>]
    call: the remainder of the division truncated toward zero, computed
    without rounding on the mantissas aligned to the smaller exponent.
    The special cases follow ISO C, F.10.7.1. *)
Definition fmod (x y : spec_float) : spec_float :=
  match x, y with
  | S754_nan, _ | _, S754_nan => S754_nan
  | S754_infinity _, _ => S754_nan
  | _, S754_zero _ => S754_nan
  | S754_zero _, _ => x
  | S754_finite _ _ _, S754_infinity _ => x
  | S754_finite sx mx ex, S754_finite _ my ey =>
      let ez := Z.min ex ey in
      let ax := Z.pos (fst (shl_align mx ex ez)) in
      let ay := Z.pos (fst (shl_align my ey ez)) in
      match Z.rem ax ay with
      | Z.pos r => binary_round prec emax sx r ez
      | _ => S754_zero sx
      end
  end.

(** The exact value of a finite number, counted in units of the
    smallest subnormal [2^emin]; [0] for the other values. *)
Definition units (x : spec_float) : Z :=
  match x with
  | S754_finite s m e => cond_Zopp s (Z.pos m) * 2 ^ (e - emin prec emax)
  | _ => 0
  end.

End Fmod.

Definition sign_bit (x : spec_float) : option bool :=
  match x with
  | S754_zero s | S754_infinity s | S754_finite s _ _ => Some s
  | S754_nan => None
  end.

Definition is_finite (x : spec_float) : bool :=
  match x with
  | S754_zero _ | S754_finite _ _ _ => true
  | _ => false
  end.

Definition is_nonzero_finite (x : spec_float) : bool :=
  match x with
  | S754_finite _ _ _ => true
  | _ => false
  end.

(** [template <> inline float mod(float a, float b)] *)
Definition mod_float : spec_float -> spec_float -> spec_float := fmod 24 128.

(** [template <> inline double mod(double a, double b)] *)
Definition mod_double : spec_float -> spec_float -> spec_float := fmod 53 1024.

(** ** CounterRandomSource *)

(** The literal [4.6566127342e-10], as the fraction
    [scale_literal_num / scale_literal_den]. *)
Definition scale_literal_num : Z := 46566127342.
Definition scale_literal_den : Z := 10 ^ 20.

(** [constexpr float scale = 4.6566127342e-10;] is the binary32 number
    nearest to the literal, (2^24 - 1) * 2^-55 (pattern 0x2FFFFFFF). *)
Definition scale : spec_float := S754_finite false 16777215 (-55).

(** [2^-31] as a binary32 number. *)
Definition two_pow_m31 : spec_float := S754_finite false 8388608 (-54).

(** [constexpr float uint32_to_uniform_float(uint32_t value)] *)
Definition uint32_to_uniform_float (value : Z) : spec_float :=
  B32.mul (B32.of_Z (Z.land value 0x7FFFFFFF)) scale.

Section Philox.
(** The engine class [at::Philox4_32] is declared in
    ATen/core/PhiloxRNGEngine.h.  Its constructor
    [(seed, subsequence, offset)], its call operator, which returns the
    next 32-bit word, and its member [randn(n_rounds)] are taken as
    parameters; the two members update the engine they are called on. *)
Variable engine : Type.
Variable Philox4_32 : Z -> Z -> Z -> engine.
Variable engine_call : engine -> Z * engine.
Variable engine_randn : Z -> engine -> spec_float * engine.

(** [float normalized_rand_cpu(uint32_t seed, uint32_t offset)]: the
    engine is a temporary, built from the arguments and dropped. *)
Definition normalized_rand_cpu (seed offset : Z) : spec_float :=
  uint32_to_uniform_float (fst (engine_call (Philox4_32 seed 0 offset))).

(** [float randn_cpu(uint32_t seed, uint32_t offset)]: the engine is a
    local variable, built from the arguments and dropped on return. *)
Definition randn_cpu (seed offset : Z) : spec_float :=
  fst (engine_randn 10 (Philox4_32 seed 0 offset)).

End Philox.

(** ** IntegerAliasMap: [AsIntegerType] *)

Inductive scalar_type :=
  | TBool | TInt8 | TUInt8 | TInt16 | TUInt16 | TInt32 | TUInt32 | TInt64 | TUInt64
  | TFloat | TDouble | THalf | TBFloat16.

Definition is_floating (T : scalar_type) : bool :=
  match T with
  | TFloat | TDouble | THalf | TBFloat16 => true
  | _ => false
  end.

(** [sizeof(T)], in bytes.  [at::Half] and [at::BFloat16] are the 16-bit
    classes of c10/util. *)
Definition sizeof (T : scalar_type) : Z :=
  match T with
  | TBool | TInt8 | TUInt8 => 1
  | TInt16 | TUInt16 | THalf | TBFloat16 => 2
  | TInt32 | TUInt32 | TFloat => 4
  | TInt64 | TUInt64 | TDouble => 8
  end.

(** [template <typename T> struct AsIntegerType] and its four
    specializations. *)
Definition AsIntegerType (T : scalar_type) : scalar_type :=
  match T with
  | TFloat => TUInt32
  | TDouble => TUInt64
  | TBFloat16 => TUInt16
  | THalf => TUInt16
  | _ => T
  end.

(** The outcome of instantiating [atomic_add<T>]: the [static_assert]
    either lets the function through or stops the build with its
    message.  [sizeof_atomic] is the platform's [sizeof(std::atomic<U>)]. *)
Inductive instantiation :=
  | Compiles
  | BuildError (message : string).

Definition atomic_add_static_assert
    (sizeof_atomic : scalar_type -> Z) (T : scalar_type) : instantiation :=
  if sizeof_atomic (AsIntegerType T) =? sizeof T
  then Compiles
  else BuildError ("std::atomic issue")%string.

(** On the supported targets an atomic of an integer of 1, 2, 4 or 8
    bytes has the size of the integer. *)
Definition sizeof_atomic_lock_free (U : scalar_type) : Z := sizeof U.

(** ** AtomicFloatAdd: [atomic_add] *)

Section AtomicAdd.
(** [V] is the set of representations of [T]: the union [uf_int] makes
    [fV] and [intV] two views of one representation, and the
    compare-exchange compares representations.  [plus] is [T]'s [+].
    Memory maps addresses to cells of type [T]; a load through an
    address that is not mapped is undefined ([None]).  The plain loads
    of lines 65 and 76 read the cell in one piece, as an aligned load of
    2, 4 or 8 bytes does, and the steps of the threads interleave. *)
Context {V : Type} `{EqDecision V}.
Variable plus : V -> V -> V.

(** The control points of one call, each with the locals that are live
    there: before line 65, before line 66, at the compare-exchange of
    line 69, inside the loop body before line 76, before line 77, and
    after the loop.  [Returned] is also where a thread is between two
    calls. *)
Inductive frame :=
  | AtLoad
  | AtCompute (expected : V)
  | AtCas (expected desired : V)
  | AtPause (expected desired : V)
  | AtRecompute (expected desired : V)
  | Returned.

Definition is_returned (f : frame) : bool :=
  match f with Returned => true | _ => false end.

Definition is_cas (f : frame) : bool :=
  match f with AtCas _ _ => true | _ => false end.

Definition is_pause (f : frame) : bool :=
  match f with AtPause _ _ => true | _ => false end.

(** One memory access or local computation of [atomic_add(addr, offset)].
    A failed [atomic_compare_exchange_strong] stores the value it found
    into [expected] and enters the loop body. *)
Definition step (addr : Z) (offset : V) (m : gmap Z V) (f : frame)
  : option (gmap Z V * frame) :=
  match f with
  | AtLoad => v ← m !! addr; Some (m, AtCompute v)
  | AtCompute expected => Some (m, AtCas expected (plus expected offset))
  | AtCas expected desired =>
      cur ← m !! addr;
      if decide (cur = expected)
      then Some (<[addr := desired]> m, Returned)
      else Some (m, AtPause cur desired)
  | AtPause _ desired => v ← m !! addr; Some (m, AtRecompute v desired)
  | AtRecompute expected _ => Some (m, AtCas expected (plus expected offset))
  | Returned => None
  end.

(** What a run of one call did: how many compare-exchanges it issued
    and how many times it entered the loop body. *)
Record stats := { cas_calls : nat; loop_entries : nat }.

Definition count (f : frame) (st : stats) : stats :=
  {| cas_calls := if is_cas f then S (cas_calls st) else cas_calls st;
     loop_entries := if is_pause f then S (loop_entries st) else loop_entries st |}.

Fixpoint atomic_add_from (fuel : nat) (addr : Z) (offset : V)
    (m : gmap Z V) (f : frame) (st : stats) : option (gmap Z V * stats) :=
  match fuel with
  | O => None
  | S fuel' =>
      if is_returned f then Some (m, st)
      else
        '(m', f') ← step addr offset m f;
        atomic_add_from fuel' addr offset m' f' (count f' st)
  end.

(** [atomic_add] run by one thread with nobody else touching memory. *)
Definition atomic_add (fuel : nat) (addr : Z) (offset : V) (m : gmap Z V)
  : option (gmap Z V * stats) :=
  atomic_add_from fuel addr offset m AtLoad
    {| cas_calls := 0; loop_entries := 0 |}.

(** A thread that still has [todo] calls to make, is at [fr] in the
    current one, and has [completed] calls behind it. *)
Record thread := { todo : nat; fr : frame; completed : nat }.

Record cstate := { heap : gmap Z V; threads : list thread }.

Definition thread_step (addr : Z) (offset : V) (m : gmap Z V) (t : thread)
  : option (gmap Z V * thread) :=
  match fr t with
  | Returned =>
      match todo t with
      | O => None
      | S k => Some (m, {| todo := k; fr := AtLoad; completed := completed t |})
      end
  | f =>
      '(m', f') ← step addr offset m f;
      Some (m', {| todo := todo t; fr := f';
                   completed := if is_returned f'
                                then S (completed t) else completed t |})
  end.

(** Thread [i] takes its next step; the others wait. *)
Definition cstep (addr : Z) (offset : V) (i : nat) (s : cstate) : option cstate :=
  t ← threads s !! i;
  '(m', t') ← thread_step addr offset (heap s) t;
  Some {| heap := m'; threads := <[i := t']> (threads s) |}.

(** An interleaving is the list of the threads that step, in order. *)
Fixpoint run_schedule (addr : Z) (offset : V) (sched : list nat) (s : cstate)
  : option cstate :=
  match sched with
  | [] => Some s
  | i :: sched' => s' ← cstep addr offset i s; run_schedule addr offset sched' s'
  end.

(** [N] threads, each about to call [atomic_add] [M] times. *)
Definition spawn (N M : nat) (m : gmap Z V) : cstate :=
  {| heap := m;
     threads := replicate N {| todo := M; fr := Returned; completed := 0 |} |}.

Definition thread_finished (t : thread) : bool :=
  is_returned (fr t) && Nat.eqb (todo t) 0.

Definition all_finished (s : cstate) : bool := forallb thread_finished (threads s).

Definition total_completed (s : cstate) : nat :=
  sum_list (completed <$> threads s).

(** The interleaving in which the threads run one after the other; an
    undisturbed call takes four steps. *)
Definition solo_schedule (N M : nat) : list nat :=
  flat_map (fun i => replicate (4 * M) i) (seq 0 N).

(** Invariant of the interleaved runs. *)
Definition in_flight (f : frame) : nat := if is_returned f then 0 else 1.

Definition frame_ok (offset : V) (f : frame) : Prop :=
  match f with AtCas e d => d = plus e offset | _ => True end.

Definition thread_ok (offset : V) (M : nat) (t : thread) : Prop :=
  (completed t + todo t + in_flight (fr t) = M)%nat /\ frame_ok offset (fr t).

Definition inv (addr : Z) (offset v0 : V) (M : nat) (s : cstate) : Prop :=
  heap s !! addr = Some (Nat.iter (total_completed s) (fun v => plus v offset) v0)
  /\ Forall (thread_ok offset M) (threads s).

End AtomicAdd.

(** ** FlagToFloatMask *)

Definition mask_of (b : bool) : Z := if b then all_ones else all_zeros.

(** A [bool] or [uint8_t] used as a condition. *)
Definition truthy (x : Z) : bool := negb (x =? 0).

(** A [float] used as a condition: anything but a zero is true. *)
Definition truthy_float (x : spec_float) : bool :=
  match x with S754_zero _ => false | _ => true end.

Section FlagToFloat.
Context {T : Type}.
Variable test : T -> bool.

(** The loop of [flag_to_float(const T* src, float* dst, int64_t n)],
    from index [i] with [k] iterations left.  [dst] is the destination
    seen through [uint32_t*]; an access past the end of an array is
    undefined ([None]). *)
Fixpoint flag_to_float_loop (src : list T) (dst : list Z) (i k : nat)
  : option (list Z) :=
  match k with
  | O => Some dst
  | S k' =>
      x ← src !! i;
      _ ← dst !! i;
      flag_to_float_loop src (<[i := mask_of (test x)]> dst) (S i) k'
  end.

Definition flag_to_float (src : list T) (dst : list Z) (n : Z) : option (list Z) :=
  flag_to_float_loop src dst 0 (Z.to_nat n).

(** The loop of the overload [flag_to_float(T src, float* dst, int64_t n)]. *)
Fixpoint flag_to_float_scalar_loop (src : T) (dst : list Z) (i k : nat)
  : option (list Z) :=
  match k with
  | O => Some dst
  | S k' =>
      _ ← dst !! i;
      flag_to_float_scalar_loop src (<[i := mask_of (test src)]> dst) (S i) k'
  end.

Definition flag_to_float_scalar (src : T) (dst : list Z) (n : Z) : option (list Z) :=
  flag_to_float_scalar_loop src dst 0 (Z.to_nat n).

End FlagToFloat.

Inductive cpu_capability := AVX2 | AVX512.

Definition vector_bytes (cap : cpu_capability) : nat :=
  match cap with AVX2 => 32 | AVX512 => 64 end.

(** [at::vec::Vectorized<T>::size()] for a [T] of [elem_bytes] bytes. *)
Definition vectorized_size (cap : cpu_capability) (elem_bytes : nat) : nat :=
  (vector_bytes cap / elem_bytes)%nat.

Section ToFloatMask.
Context {SRC : Type}.
Variable cap : cpu_capability.
Variable sizeof_src : nat.
Variable test : SRC -> bool.

(** One iteration of the loop of the generic [to_float_mask]:
    [dst_tmp[i] = src_tmp[i] ? 0xFFFFFFFF : 0;] with [dst_tmp] an array
    of [float].  The conditional has type [unsigned int] and the
    assignment converts its value to [float]. *)
Definition to_float_mask_lane (src_tmp : list SRC) (i : nat) : option spec_float :=
  x ← src_tmp !! i;
  Some (B32.of_Z (if test x then 0xFFFFFFFF else 0)).

(** [template <typename SRC> to_float_mask(Vectorized<SRC>& src)]; a
    failed [assert] aborts ([None]). *)
Definition to_float_mask (src : list SRC) : option (list spec_float) :=
  if decide (vectorized_size cap 4 = vectorized_size cap sizeof_src)
  then mapM (to_float_mask_lane src) (seq 0 (vectorized_size cap 4))
  else None.

End ToFloatMask.

(** [template <> to_float_mask(Vectorized<int>& src)]: [cvtepi32_ps]
    converts every signed 32-bit lane to the nearest [float], on AVX2 and
    on AVX512 alike. *)
Definition to_float_mask_int (src : list Z) : list spec_float := B32.of_Z <$> src.

(** The 32-bit patterns of the lanes of a vector of [float]. *)
Definition lane_bits (v : list spec_float) : list Z := B32.to_bits <$> v.

(** The generic template, had it been chosen for [int] lanes. *)
Definition to_float_mask_generic_int (cap : cpu_capability) (src : list Z)
  : option (list spec_float) :=
  to_float_mask cap 4 truthy src.

(** ** Rounding to 24 bits, on integers *)

(** [m / 2^n] rounded to the nearest integer, ties to even. *)
Definition rne (m n : Z) : Z :=
  let q := m / 2 ^ n in
  match 2 * (m mod 2 ^ n) ?= 2 ^ n with
  | Lt => q
  | Gt => q + 1
  | Eq => if Z.even q then q else q + 1
  end.

(** Mantissa and exponent of [M * 2^E] rounded to 24 significant bits,
    for [M] of at least 24 bits. *)
Definition round24_me (M E : Z) : Z * Z :=
  let n := Zdigits2 M - 24 in
  let m := rne M n in
  if m =? 16777216 then (8388608, E + n + 1) else (m, E + n).

Definition finite_of (me : Z * Z) : spec_float :=
  S754_finite false (Z.to_pos (fst me)) (snd me).

(** The order of positive normal numbers, on (mantissa, exponent). *)
Definition me_le (a b : Z * Z) : Prop :=
  snd a < snd b \/ (snd a = snd b /\ fst a <= fst b).

(** Mantissa and exponent of [uint32_to_uniform_float] on a non-zero
    31-bit word. *)
Definition uniform_me (u : Z) : Z * Z :=
  let r := round24_me (u * 2 ^ 24) (-24) in
  round24_me (fst r * 16777215) (snd r - 55).

(** ** Further instances *)

(** [+] of [uint32_t], for [atomic_add<uint32_t>]: the sum wraps. *)
Definition plus_u32 (a b : Z) : Z := (a + b) mod 2 ^ 32.

(** The strict order of positive normal numbers, on (mantissa, exponent). *)
Definition me_lt (a b : Z * Z) : Prop :=
  snd a < snd b \/ (snd a = snd b /\ fst a < fst b).

(** The product of the normal number [m * 2^e] by [scale], rounded: its
    predecessor among the [float]s, times 2^-31. *)
Definition times_scale (a : Z * Z) : Z * Z :=
  if fst a =? 8388608 then (16777215, snd a - 32) else (fst a - 1, snd a - 31).

(** The remaining classes of a floating-point operand. *)
Definition is_nan (x : spec_float) : bool :=
  match x with
  | S754_nan => true
  | _ => false
  end.

Definition is_infinite (x : spec_float) : bool :=
  match x with
  | S754_infinity _ => true
  | _ => false
  end.

Definition is_zero (x : spec_float) : bool :=
  match x with
  | S754_zero _ => true
  | _ => false
  end.

(** ** CounterRandomSource: the engine as an object in memory *)

Section PhiloxObject.
Variable engine : Type.
Variable Philox4_32 : Z -> Z -> Z -> engine.
Variable engine_call : engine -> Z * engine.
Variable engine_randn : Z -> engine -> spec_float * engine.

(** The memory holds the engine objects alive at a point of the run, by
    address: a [gmap Z engine]. *)

(** Modelled from the spec: the constructor of [at::Philox4_32]
    (ATen/core/PhiloxRNGEngine.h) fills the object at [this] from its three
    arguments and touches no other memory. *)
Definition Philox4_32_construct (this seed subsequence offset : Z)
    (w : gmap Z engine) : gmap Z engine :=
  <[this := Philox4_32 seed subsequence offset]> w.

(** Modelled from the spec: [operator()] of the engine at [this] returns
    the next 32-bit word and moves that engine on; it reads and writes the
    fields of its own object only (the output is a function of the seed
    and the counter the object holds).  There is no result when no engine
    lives at [this]. *)
Definition Philox4_32_call (this : Z) (w : gmap Z engine)
    : option (Z * gmap Z engine) :=
  e ← w !! this;
  Some (fst (engine_call e), <[this := snd (engine_call e)]> w).

(** Modelled from the spec: the member [randn(n_rounds)] of the engine at
    [this] returns a normal variate and moves that engine on, again
    within its own object only. *)
Definition Philox4_32_randn (this n_rounds : Z) (w : gmap Z engine)
    : option (spec_float * gmap Z engine) :=
  e ← w !! this;
  Some (fst (engine_randn n_rounds e), <[this := snd (engine_randn n_rounds e)]> w).

(** The end of the lifetime of the object at [this]. *)
Definition Philox4_32_destroy (this : Z) (w : gmap Z engine) : gmap Z engine :=
  delete this w.

(** [float normalized_rand_cpu(uint32_t seed, uint32_t offset)] run in
    the memory [w]: the temporary [at::Philox4_32(seed, 0, offset)] is
    built at the address [this], called once, and destroyed at the end of
    the full expression.  The result comes with the memory left behind. *)
Definition normalized_rand_cpu_at (this seed offset : Z) (w : gmap Z engine)
    : option (spec_float * gmap Z engine) :=
  '(value, w') ← Philox4_32_call this (Philox4_32_construct this seed 0 offset w);
  Some (uint32_to_uniform_float value, Philox4_32_destroy this w').

(** [float randn_cpu(uint32_t seed, uint32_t offset)] run in the memory
    [w]: the local [engine] is built at [this], [engine.randn(10)] is
    called, and the local is destroyed on return. *)
Definition randn_cpu_at (this seed offset : Z) (w : gmap Z engine)
    : option (spec_float * gmap Z engine) :=
  '(r, w') ← Philox4_32_randn this 10 (Philox4_32_construct this seed 0 offset w);
  Some (r, Philox4_32_destroy this w').

(** Two calls one after the other, the second in the memory the first
    leaves behind. *)
Definition then_again {A : Type} (f : gmap Z engine -> option (A * gmap Z engine))
    (w : gmap Z engine) : option (A * A * gmap Z engine) :=
  '(r1, w1) ← f w;
  '(r2, w2) ← f w1;
  Some (r1, r2, w2).

End PhiloxObject.

(** * Part II: lemmas and theorems *)

(** ** Powers of two and bit lengths *)

Lemma pow2_pos n : 0 <= n -> 0 < 2 ^ n.
Proof. intros. apply Z.pow_pos_nonneg; lia. Qed.

(** Appending [k] zero bits multiplies by [2^k]. *)
Lemma iter_xO_Z p k : Z.pos (Pos.iter xO p k) = Z.pos p * 2 ^ Z.pos k.
Proof.
  change (Pos.iter xO p k) with (shift_pos k p).
  rewrite shift_pos_correct. change (Z.pow_pos 2 k) with (2 ^ Z.pos k). lia.
Qed.

(** [digits2_pos p] is the bit length of [p]. *)
Lemma digits2_pos_bounds p :
  2 ^ (Z.pos (digits2_pos p) - 1) <= Z.pos p < 2 ^ Z.pos (digits2_pos p).
Proof.
  induction p as [p IH|p IH|]; cbn [digits2_pos].
  - rewrite Pos2Z.inj_succ, (Pos2Z.inj_xI p). unfold Z.succ.
    replace (Z.pos (digits2_pos p) + 1 - 1) with (Z.pos (digits2_pos p) - 1 + 1) by lia.
    rewrite !Z.pow_add_r by lia. change (2 ^ 1) with 2. lia.
  - rewrite Pos2Z.inj_succ, (Pos2Z.inj_xO p). unfold Z.succ.
    replace (Z.pos (digits2_pos p) + 1 - 1) with (Z.pos (digits2_pos p) - 1 + 1) by lia.
    rewrite !Z.pow_add_r by lia. change (2 ^ 1) with 2. lia.
  - simpl. lia.
Qed.

Lemma digits2_pos_unique p d :
  2 ^ (d - 1) <= Z.pos p < 2 ^ d -> Z.pos (digits2_pos p) = d.
Proof.
  intros [Hl Hu]. pose proof (digits2_pos_bounds p) as [Hl' Hu'].
  assert (0 < d).
  { destruct (Z.ltb_spec 0 d); [done|]. 
    destruct (Z.eqb_spec d 0) as [->|]; [simpl in Hu; lia|].
    rewrite Z.pow_neg_r in Hu by lia. lia. }
  assert (d - 1 < Z.pos (digits2_pos p)).
  { apply (Z.pow_lt_mono_r_iff 2); lia. }
  assert (Z.pos (digits2_pos p) - 1 < d).
  { apply (Z.pow_lt_mono_r_iff 2); lia. }
  lia.
Qed.

Lemma Zdigits2_bounds M :
  0 < M -> 2 ^ (Zdigits2 M - 1) <= M < 2 ^ Zdigits2 M.
Proof. destruct M; try lia. intros _. apply digits2_pos_bounds. Qed.

Lemma Zdigits2_unique M d :
  2 ^ (d - 1) <= M < 2 ^ d -> 0 < M -> Zdigits2 M = d.
Proof. destruct M; try lia. intros H _. by apply digits2_pos_unique. Qed.

Lemma Zdigits2_pos M : 0 < M -> 0 < Zdigits2 M.
Proof. destruct M; simpl; lia. Qed.

(** Scaling by [2^k] adds [k] to the bit length. *)
Lemma Zdigits2_scale M k :
  0 < M -> 0 <= k -> Zdigits2 (M * 2 ^ k) = Zdigits2 M + k.
Proof.
  intros HM Hk. pose proof (Zdigits2_bounds M HM) as [Hl Hu].
  pose proof (Zdigits2_pos M HM). pose proof (pow2_pos k Hk).
  apply Zdigits2_unique; [|lia].
  replace (Zdigits2 M + k - 1) with (Zdigits2 M - 1 + k) by lia.
  rewrite !Z.pow_add_r by lia. nia.
Qed.

Lemma Zdigits2_mono M1 M2 :
  0 < M1 -> M1 <= M2 -> Zdigits2 M1 <= Zdigits2 M2.
Proof.
  intros H1 H12.
  pose proof (Zdigits2_bounds M1 H1) as [Hl1 _].
  pose proof (Zdigits2_bounds M2 ltac:(lia)) as [_ Hu2].
  pose proof (Zdigits2_pos M1 H1).
  assert (Zdigits2 M1 - 1 < Zdigits2 M2); [|lia].
  apply (Z.pow_lt_mono_r_iff 2); try lia.
  pose proof (Zdigits2_pos M2 ltac:(lia)). lia.
Qed.

(** ** The right shift of the rounding algorithm

    [shr] by [n] places leaves the quotient by [2^n], the last bit shifted
    out and the disjunction of the bits before it; rounding the quotient
    with that location is [rne]. *)

Lemma iter_pos_nat {A} (f : A -> A) p x :
  SpecFloat.iter_pos f p x = Nat.iter (Pos.to_nat p) f x.
Proof.
  revert x. induction p as [p IH|p IH|]; intros x; cbn [SpecFloat.iter_pos].
  - rewrite !IH. rewrite Pos2Nat.inj_xI. 
    replace (S (2 * Pos.to_nat p))%nat with (Pos.to_nat p + (Pos.to_nat p + 1))%nat by lia.
    rewrite !Nat.iter_add. reflexivity.
  - rewrite !IH. rewrite Pos2Nat.inj_xO.
    replace (2 * Pos.to_nat p)%nat with (Pos.to_nat p + Pos.to_nat p)%nat by lia.
    rewrite Nat.iter_add. reflexivity.
  - reflexivity.
Qed.

(** One place of right shift. *)
Lemma shr_1_nonneg m r s :
  0 <= m ->
  shr_1 (Build_shr_record m r s) = Build_shr_record (m / 2) (Z.odd m) (r || s).
Proof.
  intros Hm. destruct m as [|p|p]; [reflexivity| |lia].
  destruct p as [p|p|]; simpl.
  - f_equal. rewrite Pos2Z.inj_xI. apply Z.div_unique with 1; lia.
  - f_equal. rewrite Pos2Z.inj_xO.  apply Z.div_unique with 0; lia.
  - reflexivity.
Qed.

(** [k + 1] places of right shift of an exact record. *)
Lemma shr_iter m k :
  0 <= m ->
  Nat.iter (S k) shr_1 (Build_shr_record m false false)
  = Build_shr_record (m / 2 ^ Z.of_nat (S k)) (Z.odd (m / 2 ^ Z.of_nat k))
      (negb (m mod 2 ^ Z.of_nat k =? 0)).
Proof.
  intros Hm. induction k as [|k IH].
  - rewrite Nat.iter_succ. change (Nat.iter 0 shr_1 ?x) with x. rewrite shr_1_nonneg by done. 
    change (2 ^ Z.of_nat 1) with 2. change (2 ^ Z.of_nat 0) with 1.
    rewrite Z.div_1_r, Z.mod_1_r. reflexivity.
  - rewrite Nat.iter_succ, IH.
    assert (H2 : forall j, 0 < 2 ^ Z.of_nat j) by (intros; apply Z.pow_pos_nonneg; lia).
    rewrite shr_1_nonneg by (apply Z.div_pos; [lia|apply H2]).
    f_equal.
    + rewrite Z.div_div by (try apply H2; try lia; pose proof (H2 (S k)); lia).
      f_equal. rewrite (Nat2Z.inj_succ (S k)), Z.pow_succ_r by lia. lia.
    + rewrite (Nat2Z.inj_succ k), Z.pow_succ_r by lia.
      pose proof (H2 k) as Hk. set (P := 2 ^ Z.of_nat k) in *.
      rewrite (Z.mul_comm 2 P), Z.rem_mul_r by lia.
      rewrite (Zmod_odd (m / P)).
      pose proof (Z.mod_pos_bound m P Hk).
      destruct (Z.odd (m / P)), (Z.eqb_spec (m mod P) 0); simpl; symmetry;
        rewrite ?negb_true_iff, ?negb_false_iff;
        first [apply Z.eqb_neq; lia | apply Z.eqb_eq; lia].
Qed.

(** Shifting by [n] places and rounding the quotient is [rne]. *)
Lemma shr_round m e n :
  0 <= m -> 0 <= n ->
  let mrs := fst (shr (Build_shr_record m false false) e n) in
  round_nearest_even (shr_m mrs) (loc_of_shr_record mrs) = rne m n
  /\ snd (shr (Build_shr_record m false false) e n) = e + n.
Proof.
  intros Hm Hn. destruct n as [|p|p]; [| |lia].
  - simpl. split; [|lia]. unfold rne. change (2 ^ 0) with 1.
    rewrite Z.div_1_r, Z.mod_1_r. reflexivity.
  - cbn [shr fst snd]. split; [|reflexivity].
    rewrite iter_pos_nat.
    destruct (Pos2Nat.is_succ p) as [k Hk]. rewrite Hk, shr_iter by done.
    assert (Hp : Z.pos p = Z.of_nat k + 1) by lia.
    unfold rne. rewrite Hp. rewrite Nat2Z.inj_succ. unfold Z.succ.
    rewrite (Z.pow_add_r 2 (Z.of_nat k) 1) by lia. change (2 ^ 1) with 2.
    pose proof (pow2_pos (Z.of_nat k) ltac:(lia)) as HP.
    set (P := 2 ^ Z.of_nat k) in *.
    rewrite Z.rem_mul_r by lia.
    pose proof (Z.mod_pos_bound m P HP).
    cbn [shr_m loc_of_shr_record].
    rewrite (Zmod_odd (m / P)).
    destruct (Z.odd (m / P)), (Z.eqb_spec (m mod P) 0); cbn [negb round_nearest_even].
    + replace (2 * (m mod P + P * 1) ?= P * 2) with Eq; [reflexivity|].
      symmetry. apply Z.compare_eq_iff. lia.
    + replace (2 * (m mod P + P * 1) ?= P * 2) with Gt; [reflexivity|].
      symmetry. apply Z.compare_gt_iff. lia.
    + replace (2 * (m mod P + P * 0) ?= P * 2) with Lt; [reflexivity|].
      symmetry. apply Z.compare_lt_iff. lia.
    + replace (2 * (m mod P + P * 0) ?= P * 2) with Lt; [reflexivity|].
      symmetry. apply Z.compare_lt_iff. lia.
Qed.

(** ** Rounding to the nearest integer, ties to even *)

Lemma rne_bounds m n :
  0 <= m -> 0 <= n -> m / 2 ^ n <= rne m n <= m / 2 ^ n + 1.
Proof.
  intros. unfold rne. destruct (_ ?= _); [destruct (Z.even _)| |]; lia.
Qed.

Lemma rne_mono m1 m2 n :
  0 <= n -> m1 <= m2 -> rne m1 n <= rne m2 n.
Proof.
  intros Hn Hm. pose proof (pow2_pos n Hn) as HP.
  unfold rne. set (P := 2 ^ n) in *.
  pose proof (Z.div_le_mono m1 m2 P HP Hm) as Hq.
  pose proof (Z.div_mod m1 P ltac:(lia)) as E1.
  pose proof (Z.div_mod m2 P ltac:(lia)) as E2.
  pose proof (Z.mod_pos_bound m1 P HP).
  pose proof (Z.mod_pos_bound m2 P HP).
  destruct (Z.eq_dec (m1 / P) (m2 / P)) as [Heq|Hne].
  - rewrite Heq in *.
    destruct (Z.compare_spec (2 * (m1 mod P)) P), (Z.compare_spec (2 * (m2 mod P)) P);
      destruct (Z.even (m2 / P)); lia.
  - destruct (Z.compare_spec (2 * (m1 mod P)) P), (Z.compare_spec (2 * (m2 mod P)) P);
      destruct (Z.even (m1 / P)), (Z.even (m2 / P)); lia.
Qed.

(** Trailing zero bits that are shifted out do not change the rounding. *)
Lemma rne_scale m n k :
  0 <= n -> 0 <= k -> rne (m * 2 ^ k) (n + k) = rne m n.
Proof.
  intros Hn Hk. unfold rne.
  pose proof (pow2_pos n Hn). pose proof (pow2_pos k Hk).
  rewrite Z.pow_add_r by lia.
  rewrite Z.div_mul_cancel_r by lia.
  rewrite Z.mul_mod_distr_r by lia.
  rewrite Z.mul_assoc.
  rewrite <- (Zmult_compare_compat_r (2 * (m mod 2 ^ n)) (2 ^ n) (2 ^ k)) by lia.
  reflexivity.
Qed.

(** ** Rounding to 24 significant bits *)

Lemma round24_me_bounds M E :
  0 < M -> 24 <= Zdigits2 M ->
  8388608 <= fst (round24_me M E) < 16777216
  /\ Zdigits2 M - 24 + E <= snd (round24_me M E) <= Zdigits2 M - 24 + E + 1.
Proof.
  intros HM Hd. unfold round24_me.
  destruct M as [|p|p]; try lia. cbn [Zdigits2] in *.
  pose proof (digits2_pos_bounds p) as [Hl Hu].
  set (d := Z.pos (digits2_pos p)) in *. set (n := d - 24).
  pose proof (rne_bounds (Z.pos p) n ltac:(lia) ltac:(lia)) as Hr.
  pose proof (pow2_pos n ltac:(lia)) as HP.
  assert (Hq : 8388608 <= Z.pos p / 2 ^ n < 16777216).
  { replace (d - 1) with (23 + n) in Hl by lia.
    replace d with (24 + n) in Hu by lia.
    rewrite Z.pow_add_r in Hl, Hu by lia.
    change (2 ^ 23) with 8388608 in Hl. change (2 ^ 24) with 16777216 in Hu.
    split.
    - apply Z.div_le_lower_bound; lia.
    - apply Z.div_lt_upper_bound; lia. }
  destruct (Z.eqb_spec (rne (Z.pos p) n) 16777216); cbn [fst snd]; lia.
Qed.

(** [M * 2^k] at exponent [E - k] and [M] at exponent [E] round alike. *)
Lemma round24_me_scale M E k :
  0 < M -> 24 <= Zdigits2 M -> 0 <= k ->
  round24_me (M * 2 ^ k) (E - k) = round24_me M E.
Proof.
  intros HM Hd Hk. unfold round24_me.
  rewrite Zdigits2_scale by done.
  replace (Zdigits2 M + k - 24) with (Zdigits2 M - 24 + k) by lia.
  rewrite rne_scale by lia.
  destruct (_ =? _); f_equal; lia.
Qed.

(** Rounding is monotone: at one exponent, then at two. *)
Lemma round24_me_mono M1 M2 E :
  0 < M1 -> 24 <= Zdigits2 M1 -> M1 <= M2 ->
  me_le (round24_me M1 E) (round24_me M2 E).
Proof.
  intros H1 Hd1 H12.
  pose proof (Zdigits2_mono M1 M2 H1 H12) as Hd.
  pose proof (round24_me_bounds M1 E H1 Hd1) as [Hm1 He1].
  pose proof (round24_me_bounds M2 E ltac:(lia) ltac:(lia)) as [Hm2 He2].
  unfold me_le.
  destruct (Z.eq_dec (Zdigits2 M1) (Zdigits2 M2)) as [Heq|Hne].
  - unfold round24_me in *. rewrite <- Heq in *.
    pose proof (rne_mono M1 M2 (Zdigits2 M1 - 24) ltac:(lia) H12).
    destruct (Z.eqb_spec (rne M1 (Zdigits2 M1 - 24)) 16777216),
             (Z.eqb_spec (rne M2 (Zdigits2 M1 - 24)) 16777216); cbn [fst snd] in *; lia.
  - unfold round24_me in *.
    destruct (Z.eqb_spec (rne M1 (Zdigits2 M1 - 24)) 16777216),
             (Z.eqb_spec (rne M2 (Zdigits2 M2 - 24)) 16777216); cbn [fst snd] in *; lia.
Qed.

Lemma round24_me_mono_gen M1 E1 M2 E2 :
  0 < M1 -> 24 <= Zdigits2 M1 -> 0 < M2 -> 24 <= Zdigits2 M2 ->
  E1 <= E2 -> M1 <= M2 * 2 ^ (E2 - E1) ->
  me_le (round24_me M1 E1) (round24_me M2 E2).
Proof.
  intros H1 Hd1 H2 Hd2 HE HM.
  rewrite <- (round24_me_scale M2 E2 (E2 - E1)) by lia.
  replace (E2 - (E2 - E1)) with E1 by lia.
  by apply round24_me_mono.
Qed.

(** An integer below [2^24] is not changed by the rounding. *)
Lemma round24_me_exact k :
  0 < k < 2 ^ 24 ->
  round24_me (k * 2 ^ 24) (-24) = (k * 2 ^ (24 - Zdigits2 k), Zdigits2 k - 24).
Proof.
  intros Hk. unfold round24_me.
  pose proof (Zdigits2_pos k ltac:(lia)) as Hd0.
  pose proof (Zdigits2_bounds k ltac:(lia)) as [Hl Hu].
  assert (Hd : Zdigits2 k <= 24).
  { assert (Zdigits2 k - 1 < 24); [|lia]. apply (Z.pow_lt_mono_r_iff 2); lia. }
  rewrite Zdigits2_scale by lia.
  replace (Zdigits2 k + 24 - 24) with (Zdigits2 k) by lia.
  set (d := Zdigits2 k) in *.
  assert (Hr : rne (k * 2 ^ 24) d = k * 2 ^ (24 - d)).
  { replace (k * 2 ^ 24) with (k * 2 ^ (24 - d) * 2 ^ d)
      by (rewrite <- Z.mul_assoc, <- Z.pow_add_r by lia; do 2 f_equal; lia).
    rewrite (rne_scale (k * 2 ^ (24 - d)) 0 d ltac:(lia) ltac:(lia) : rne _ d = _).
    unfold rne. change (2 ^ 0) with 1. rewrite Z.mod_1_r, Z.div_1_r. reflexivity. }
  rewrite Hr.
  assert (Hlt : k * 2 ^ (24 - d) < 16777216).
  { change 16777216 with (2 ^ 24). replace 24 with (d + (24 - d)) at 2 by lia.
    rewrite Z.pow_add_r by lia. pose proof (pow2_pos (24 - d) ltac:(lia)). nia. }
  destruct (Z.eqb_spec (k * 2 ^ (24 - d)) 16777216); [lia|]. f_equal; lia.
Qed.

(** [me_le] is the comparison of the numbers. *)
Lemma finite_of_leb a b :
  0 < fst a -> 0 < fst b -> me_le a b -> SFleb (finite_of a) (finite_of b) = true.
Proof.
  intros Ha Hb Hle. unfold SFleb, SFcompare, finite_of.
  destruct a as [ma ea], b as [mb eb]. unfold me_le in Hle. cbn [fst snd] in *.
  destruct Hle as [Hlt|[-> Hm]].
  - apply Z.compare_lt_iff in Hlt. rewrite Hlt. reflexivity.
  - rewrite Z.compare_refl.
    rewrite Pos.compare_cont_spec. cbn [Pos.switch_Eq].
    destruct (Pos.compare_spec (Z.to_pos ma) (Z.to_pos mb)); try reflexivity. lia.
Qed.

(** ** The binary32 operations in terms of [round24_me]

    In the range where the result is a normal number,
    [binary_round_aux] on an exact location is [round24_me]. *)

Lemma bra_spec M E :
  24 <= Zdigits2 (Z.pos M) ->
  -149 <= Zdigits2 (Z.pos M) - 24 + E < 104 ->
  binary_round_aux 24 128 false (Z.pos M) E loc_Exact
  = finite_of (round24_me (Z.pos M) E).
Proof.
  intros Hd HE.
  pose proof (round24_me_bounds (Z.pos M) E ltac:(lia) Hd) as [Hm He].
  unfold binary_round_aux, shr_fexp.
  cbn [shr_record_of_loc].
  set (d := Zdigits2 (Z.pos M)) in *.
  assert (Hf : fexp 24 128 (d + E) - E = d - 24).
  { unfold fexp, emin. lia. }
  rewrite Hf.
  pose proof (shr_round (Z.pos M) E (d - 24) ltac:(lia) ltac:(lia)) as [Hr Hs].
  destruct (shr {| shr_m := Z.pos M; shr_r := false; shr_s := false |} E (d - 24))
    as [mrs' e'] eqn:Hshr.
  cbn [fst snd] in Hr, Hs. rewrite Hr. subst e'.
  unfold round24_me in *. fold d in Hm, He |- *.
  destruct (Z.eqb_spec (rne (Z.pos M) (d - 24)) 16777216) as [Heq|Hne].
  - rewrite Heq. cbn [fst snd] in *.
    replace (fexp 24 128 (Zdigits2 16777216 + (E + (d - 24))) - (E + (d - 24))) with 1
      by (change (Zdigits2 16777216) with 25; unfold fexp, emin; lia).
    cbn [shr shr_record_of_loc SpecFloat.iter_pos shr_1 shr_m].
    replace (E + (d - 24) + 1 <=? 128 - 24) with true by (symmetry; apply Z.leb_le; lia).
    unfold finite_of. cbn [fst snd]. f_equal; lia.
  - cbn [fst snd] in *.
    destruct (rne (Z.pos M) (d - 24)) as [|r|r] eqn:Hrne; try lia.
    assert (Hdr : Zdigits2 (Z.pos r) = 24).
    { apply digits2_pos_unique. change (2 ^ (24 - 1)) with 8388608.
      change (2 ^ 24) with 16777216. lia. }
    replace (fexp 24 128 (Zdigits2 (Z.pos r) + (E + (d - 24))) - (E + (d - 24))) with 0
      by (rewrite Hdr; unfold fexp, emin; lia).
    cbn [shr shr_record_of_loc shr_m].
    replace (E + (d - 24) <=? 128 - 24) with true by (symmetry; apply Z.leb_le; lia).
    unfold finite_of. cbn [fst snd]. rewrite Pos2Z.id. reflexivity.
Qed.

(** [binary_round], which first left-aligns a short mantissa. *)
Lemma binary_round_spec p e :
  -149 <= Z.pos (digits2_pos p) + e - 24 < 104 ->
  binary_round 24 128 false p e = finite_of (round24_me (Z.pos p * 2 ^ 24) (e - 24)).
Proof.
  intros He. unfold binary_round.
  set (d := Z.pos (digits2_pos p)) in *.
  assert (Hd : 0 < d) by (unfold d; lia).
  replace (fexp 24 128 (d + e)) with (d + e - 24) by (unfold fexp, emin; lia).
  unfold shl_align.
  destruct (d + e - 24 - e) as [|k|k] eqn:Hk.
  - rewrite bra_spec by (cbn [Zdigits2]; fold d; lia).
    rewrite <- (round24_me_scale (Z.pos p) e 24) by (cbn [Zdigits2]; fold d; lia).
    reflexivity.
  - rewrite bra_spec by (cbn [Zdigits2]; fold d; lia).
    rewrite <- (round24_me_scale (Z.pos p) e 24) by (cbn [Zdigits2]; fold d; lia).
    reflexivity.
  - assert (Hdk : Zdigits2 (Z.pos (Pos.iter xO p k)) = 24).
    { rewrite iter_xO_Z. rewrite Zdigits2_scale by lia. cbn [Zdigits2]. fold d. lia. }
    rewrite bra_spec by (rewrite Hdk; lia).
    rewrite iter_xO_Z.
    rewrite <- (round24_me_scale (Z.pos p * 2 ^ Z.pos k) (d + e - 24) d)
      by (rewrite <- ?iter_xO_Z, ?Hdk; lia).
    f_equal. f_equal; [|lia].
    rewrite <- Z.mul_assoc, <- Z.pow_add_r by lia. do 2 f_equal. lia.
Qed.

(** The conversion of a positive integer. *)
Lemma of_Z_pos u :
  0 < u < 2 ^ 127 ->
  B32.of_Z u = finite_of (round24_me (u * 2 ^ 24) (-24)).
Proof.
  intros [Hu Hu']. destruct u as [|p|p]; try lia.
  unfold B32.of_Z, B32.prec, B32.emax, binary_normalize.
  pose proof (digits2_pos_bounds p) as [Hl Hh].
  assert (Z.pos (digits2_pos p) - 1 < 127) by (apply (Z.pow_lt_mono_r_iff 2); lia).
  rewrite binary_round_spec by lia. reflexivity.
Qed.

(** Below [2^24], adding 1.0f to an integer gives the next integer. *)
Lemma add_one_exact k :
  0 < k < 2 ^ 24 -> B32.add (B32.of_Z k) B32.one = B32.of_Z (k + 1).
Proof.
  intros Hk.
  assert (H127 : 2 ^ 24 < 2 ^ 127) by reflexivity.
  rewrite !of_Z_pos by lia.
  rewrite round24_me_exact by lia.
  pose proof (Zdigits2_pos k ltac:(lia)) as Hd0.
  pose proof (Zdigits2_bounds k ltac:(lia)) as [Hl Hu].
  assert (Hd : Zdigits2 k <= 24).
  { assert (Zdigits2 k - 1 < 24); [|lia]. apply (Z.pow_lt_mono_r_iff 2); lia. }
  set (d := Zdigits2 k) in *.
  pose proof (pow2_pos (24 - d) ltac:(lia)) as HP.
  unfold finite_of at 1. cbn [fst snd].
  unfold B32.add, B32.prec, B32.emax, B32.one, SFadd.
  replace (Z.min (d - 24) (-23)) with (-23) by lia.
  assert (Hx : Z.pos (fst (shl_align (Z.to_pos (k * 2 ^ (24 - d))) (d - 24) (-23)))
               = k * 2 ^ 23).
  { unfold shl_align. destruct (-23 - (d - 24)) as [|j|j] eqn:Hj; cbn [fst]; try lia.
    - rewrite Z2Pos.id by lia. do 2 f_equal. lia.
    - rewrite iter_xO_Z, Z2Pos.id by lia.
      rewrite <- Z.mul_assoc, <- Z.pow_add_r by lia. do 2 f_equal. lia. }
  rewrite Hx. change (fst (shl_align 8388608 (-23) (-23))) with 8388608%positive.
  cbn [cond_Zopp].
  replace (k * 2 ^ 23 + 8388608) with ((k + 1) * 2 ^ 23) by (change (2 ^ 23) with 8388608; lia).
  destruct ((k + 1) * 2 ^ 23) as [|q|q] eqn:Hq; try lia.
  unfold binary_normalize.
  assert (Hdq : Z.pos (digits2_pos q) = Zdigits2 (k + 1) + 23).
  { change (Z.pos (digits2_pos q)) with (Zdigits2 (Z.pos q)). rewrite <- Hq.
    apply Zdigits2_scale; lia. }
  pose proof (Zdigits2_pos (k + 1) ltac:(lia)).
  pose proof (Zdigits2_bounds (k + 1) ltac:(lia)) as [Hl1 Hu1].
  assert (Zdigits2 (k + 1) - 1 < 25).
  { apply (Z.pow_lt_mono_r_iff 2); [lia|lia|].
    eapply Z.le_lt_trans; [apply Hl1|]. change (2 ^ 25) with (2 * 2 ^ 24). lia. }
  rewrite binary_round_spec by lia.
  rewrite <- Hq.
  rewrite <- (round24_me_scale ((k + 1) * 2 ^ 24) (-24) 23); try lia.
  - do 2 f_equal. lia.
  - rewrite Zdigits2_scale by lia. lia.
Qed.

(** ** CounterRandomSource: [uint32_to_uniform_float] *)

Lemma land_low31_range x : 0 <= Z.land x 0x7FFFFFFF < 2 ^ 31.
Proof.
  change 0x7FFFFFFF with (Z.ones 31). rewrite Z.land_ones by lia.
  apply Z.mod_pos_bound. reflexivity.
Qed.

Lemma land_low31_idem x : Z.land (Z.land x 0x7FFFFFFF) 0x7FFFFFFF = Z.land x 0x7FFFFFFF.
Proof. rewrite <- Z.land_assoc. reflexivity. Qed.

Lemma uniform_low31 x :
  uint32_to_uniform_float x = uint32_to_uniform_float (Z.land x 0x7FFFFFFF).
Proof. unfold uint32_to_uniform_float. by rewrite land_low31_idem. Qed.

(** The product of two 24-bit mantissas, one of them that of [scale]. *)
Lemma digits_mul_scale m :
  8388608 <= m < 16777216 -> 47 <= Zdigits2 (m * 16777215) <= 48.
Proof.
  intros Hm.
  assert (Hl : 2 ^ 46 <= m * 16777215) by (change (2 ^ 46) with 70368744177664; lia).
  assert (Hu : m * 16777215 < 2 ^ 48) by (change (2 ^ 48) with 281474976710656; lia).
  pose proof (Zdigits2_bounds (m * 16777215) ltac:(lia)) as [Hl' Hu'].
  pose proof (Zdigits2_pos (m * 16777215) ltac:(lia)).
  split.
  - assert (46 < Zdigits2 (m * 16777215)); [|lia].
    apply (Z.pow_lt_mono_r_iff 2); lia.
  - assert (Zdigits2 (m * 16777215) - 1 < 48); [|lia].
    apply (Z.pow_lt_mono_r_iff 2); lia.
Qed.

(** The multiplication by [scale] of a normal number. *)
Lemma mul_scale_spec a :
  8388608 <= fst a < 16777216 -> -100 <= snd a <= 100 ->
  B32.mul (finite_of a) scale
  = finite_of (round24_me (fst a * 16777215) (snd a - 55)).
Proof.
  intros Hm He. destruct a as [m e]. cbn [fst snd] in *.
  unfold B32.mul, B32.prec, B32.emax, finite_of, scale, SFmul. cbn [fst snd xorb].
  pose proof (digits_mul_scale m Hm) as Hd.
  assert (HM : m * 16777215 = Z.pos (Z.to_pos m * 16777215)).
  { rewrite Pos2Z.inj_mul, Z2Pos.id; lia. }
  rewrite HM in *.
  rewrite bra_spec by lia.
  replace (e + -55) with (e - 55) by lia. reflexivity.
Qed.

(** The conversion of a non-zero 31-bit word is a normal number. *)
Lemma of_Z_me_bounds u :
  0 < u < 2 ^ 31 ->
  let r := round24_me (u * 2 ^ 24) (-24) in
  8388608 <= fst r < 16777216 /\ -24 <= snd r <= 8.
Proof.
  intros [Hu Hu'] r.
  assert (Hd : 25 <= Zdigits2 (u * 2 ^ 24) <= 55).
  { rewrite Zdigits2_scale by lia.
    pose proof (Zdigits2_pos u Hu). pose proof (Zdigits2_bounds u Hu) as [Hl _].
    assert (Zdigits2 u - 1 < 31); [|lia]. apply (Z.pow_lt_mono_r_iff 2); lia. }
  pose proof (round24_me_bounds (u * 2 ^ 24) (-24) ltac:(lia) ltac:(lia)) as [Hm He].
  fold r in Hm, He. split; [done|lia].
Qed.

(** The function on a non-zero 31-bit word. *)
Lemma uniform_pos u :
  0 < u < 2 ^ 31 ->
  uint32_to_uniform_float u = finite_of (uniform_me u).
Proof.
  intros Hu. unfold uint32_to_uniform_float.
  change 0x7FFFFFFF with (Z.ones 31). rewrite Z.land_ones by lia.
  rewrite Z.mod_small by lia.
  rewrite of_Z_pos by (split; [lia|]; eapply Z.lt_trans; [apply Hu|reflexivity]).
  pose proof (of_Z_me_bounds u Hu) as [Hm He].
  rewrite mul_scale_spec by lia. reflexivity.
Qed.

Lemma uniform_me_mono u1 u2 :
  0 < u1 -> u1 <= u2 -> u2 < 2 ^ 31 ->
  me_le (uniform_me u1) (uniform_me u2).
Proof.
  intros H1 H12 H2. unfold uniform_me.
  pose proof (of_Z_me_bounds u1 ltac:(lia)) as [Hm1 He1].
  pose proof (of_Z_me_bounds u2 ltac:(lia)) as [Hm2 He2].
  assert (Hle : me_le (round24_me (u1 * 2 ^ 24) (-24)) (round24_me (u2 * 2 ^ 24) (-24))).
  { apply round24_me_mono; [lia| |lia].
    rewrite Zdigits2_scale by lia. pose proof (Zdigits2_pos u1 H1). lia. }
  cbv zeta in *.
  destruct (round24_me (u1 * 2 ^ 24) (-24)) as [m1 e1].
  destruct (round24_me (u2 * 2 ^ 24) (-24)) as [m2 e2].
  unfold me_le in Hle. cbn [fst snd] in *.
  pose proof (digits_mul_scale m1 Hm1). pose proof (digits_mul_scale m2 Hm2).
  apply round24_me_mono_gen; try lia.
  replace (e2 - 55 - (e1 - 55)) with (e2 - e1) by lia.
  destruct Hle as [Hlt|[-> Hle]].
  - assert (2 ^ 1 <= 2 ^ (e2 - e1)) by (apply Z.pow_le_mono_r; lia).
    change (2 ^ 1) with 2 in *. nia.
  - rewrite Z.sub_diag. change (2 ^ 0) with 1. lia.
Qed.

Lemma uniform_me_bounds u :
  0 < u < 2 ^ 31 -> 8388608 <= fst (uniform_me u) < 16777216.
Proof.
  intros Hu. unfold uniform_me.
  pose proof (of_Z_me_bounds u Hu) as [Hm He]. cbv zeta in *.
  pose proof (digits_mul_scale _ Hm).
  apply round24_me_bounds; lia.
Qed.

Lemma uniform_me_max : uniform_me 0x7FFFFFFF = (16777215, -24).
Proof. vm_compute. reflexivity. Qed.

(** The result is +0 or the normal number [uniform_me]. *)
Lemma uniform_cases x :
  (Z.land x 0x7FFFFFFF = 0 /\ uint32_to_uniform_float x = B32.zero)
  \/ (0 < Z.land x 0x7FFFFFFF < 2 ^ 31
      /\ uint32_to_uniform_float x = finite_of (uniform_me (Z.land x 0x7FFFFFFF))).
Proof.
  pose proof (land_low31_range x) as Hr.
  destruct (Z.eq_dec (Z.land x 0x7FFFFFFF) 0) as [H0|Hn].
  - left. split; [done|]. unfold uint32_to_uniform_float. rewrite H0. reflexivity.
  - right. split; [lia|]. rewrite uniform_low31. apply uniform_pos. lia.
Qed.

Lemma uniform_mono x y :
  Z.land x 0x7FFFFFFF <= Z.land y 0x7FFFFFFF ->
  SFleb (uint32_to_uniform_float x) (uint32_to_uniform_float y) = true.
Proof.
  intros Hxy.
  destruct (uniform_cases x) as [[Hx ->]|[Hx ->]], (uniform_cases y) as [[Hy ->]|[Hy ->]];
    try reflexivity; try lia.
  pose proof (uniform_me_bounds _ Hx). pose proof (uniform_me_bounds _ Hy).
  apply finite_of_leb; try lia. apply uniform_me_mono; lia.
Qed.

Lemma uniform_range x :
  SFleb B32.zero (uint32_to_uniform_float x) = true
  /\ SFltb (uint32_to_uniform_float x) B32.one = true.
Proof.
  destruct (uniform_cases x) as [[Hx ->]|[Hx ->]]; [split; reflexivity|].
  pose proof (uniform_me_bounds _ Hx) as Hb.
  pose proof (uniform_me_mono (Z.land x 0x7FFFFFFF) 0x7FFFFFFF ltac:(lia) ltac:(lia) ltac:(reflexivity)) as Hle.
  rewrite uniform_me_max in Hle. unfold me_le in Hle. cbn [fst snd] in Hle.
  destruct (uniform_me (Z.land x 0x7FFFFFFF)) as [m e]. cbn [fst snd] in *.
  unfold B32.leb, B32.ltb, finite_of, B32.zero, B32.one, SFleb, SFltb, SFcompare. cbn [fst snd].
  split; [reflexivity|].
  assert (He : e < -23) by lia. apply Z.compare_lt_iff in He. rewrite He. reflexivity.
Qed.

(** The literal of the source is closer to [scale] than to any other
    binary32 number: it lies strictly between the midpoints with the two
    neighbours of (2^24 - 1) * 2^-55, whose distance to it is 2^-56. *)
Lemma scale_nearest_literal :
  (2 * 16777215 - 1) * scale_literal_den < scale_literal_num * 2 ^ 56
  /\ scale_literal_num * 2 ^ 56 < (2 * 16777215 + 1) * scale_literal_den.
Proof. unfold scale_literal_num, scale_literal_den. split; reflexivity. Qed.

(** The same holds 2^-84 around the literal, which is more than the
    error of reading the literal as a [double] first. *)
Lemma scale_nearest_literal_as_double :
  (2 * 16777215 - 1) * 2 ^ 28 * scale_literal_den
  < scale_literal_num * 2 ^ 84 - scale_literal_den
  /\ scale_literal_num * 2 ^ 84 + scale_literal_den
     < (2 * 16777215 + 1) * 2 ^ 28 * scale_literal_den.
Proof. unfold scale_literal_num, scale_literal_den. split; reflexivity. Qed.

Lemma scale_bits : B32.to_bits scale = 0x2FFFFFFF.
Proof. reflexivity. Qed.

(** C6. For every input word, [uint32_to_uniform_float] lies in [0, 1);
    it is the product of the low 31 bits, converted to [float], by a
    constant strictly below 2^-31; and it is monotone in the low 31 bits. *)
Theorem uint32_to_uniform_float_unit_interval (x y : Z) :
  Z.land x 0x7FFFFFFF <= Z.land y 0x7FFFFFFF ->
  (B32.leb B32.zero (uint32_to_uniform_float x) = true
   /\ B32.ltb (uint32_to_uniform_float x) B32.one = true)
  /\ uint32_to_uniform_float x = B32.mul (B32.of_Z (x mod 2 ^ 31)) scale
  /\ B32.ltb scale two_pow_m31 = true
  /\ B32.leb (uint32_to_uniform_float x) (uint32_to_uniform_float y) = true.
Proof.
  intros Hxy. split; [apply uniform_range|]. split; [|split].
  - unfold uint32_to_uniform_float. change 0x7FFFFFFF with (Z.ones 31).
    by rewrite Z.land_ones by lia.
  - reflexivity.
  - by apply uniform_mono.
Qed.

Lemma uint32_to_uniform_float_unit_interval_witness :
  (B32.leb B32.zero (uint32_to_uniform_float 0x80000005) = true
   /\ B32.ltb (uint32_to_uniform_float 0x80000005) B32.one = true)
  /\ uint32_to_uniform_float 0x80000005
     = B32.mul (B32.of_Z (0x80000005 mod 2 ^ 31)) scale
  /\ B32.ltb scale two_pow_m31 = true
  /\ B32.leb (uint32_to_uniform_float 0x80000005) (uint32_to_uniform_float 7) = true.
Proof.
  apply (uint32_to_uniform_float_unit_interval 0x80000005 7).
  vm_compute. discriminate.
Defined.

(** C8. The top bit of the input is ignored; on 0x7FFFFFFF and on
    0xFFFFFFFF the result is the same number 1 - 2^-24 (pattern
    0x3F7FFFFF), below 1, and no input gives more. *)
Theorem uint32_to_uniform_float_ignores_top_bit :
  (forall x, uint32_to_uniform_float x
             = uint32_to_uniform_float (Z.land x 0x7FFFFFFF))
  /\ uint32_to_uniform_float 0x7FFFFFFF = uint32_to_uniform_float 0xFFFFFFFF
  /\ B32.to_bits (uint32_to_uniform_float 0x7FFFFFFF) = 0x3F7FFFFF
  /\ B32.ltb (uint32_to_uniform_float 0x7FFFFFFF) B32.one = true
  /\ (forall x, B32.leb (uint32_to_uniform_float x)
                        (uint32_to_uniform_float 0x7FFFFFFF) = true).
Proof.
  split; [apply uniform_low31|]. split; [reflexivity|].
  split; [reflexivity|]. split; [reflexivity|].
  intros x. apply uniform_mono.
  pose proof (land_low31_range x) as Hx.
  change (Z.land 0x7FFFFFFF 0x7FFFFFFF) with (2 ^ 31 - 1). lia.
Qed.

(** ** GenericModulo: the integral instances *)

Lemma convert_in_range ty z : in_range ty z -> convert ty z = z.
Proof.
  destruct ty; unfold in_range, int_min, int_max, convert; cbn; intros Hz;
    try (rewrite Z.mod_small by lia; lia).
  destruct (Z.eqb_spec z 0); lia.
Qed.

(** The remainder of two values of [T] fits [T]. *)
Lemma rem_in_range ty a b :
  in_range ty a -> in_range ty b -> b <> 0 -> in_range ty (Z.rem a b).
Proof.
  intros Ha Hb Hb0.
  pose proof (Z.rem_bound_abs a b Hb0) as Habs.
  destruct (Z.le_gt_cases 0 a) as [Hpos|Hneg].
  - pose proof (Z.rem_nonneg a b Hb0 Hpos).
    destruct ty; unfold in_range, int_min, int_max in *; cbn in *; lia.
  - pose proof (Z.rem_nonpos a b Hb0 ltac:(lia)).
    destruct ty; unfold in_range, int_min, int_max in *; cbn in *; lia.
Qed.

Lemma builtin_rem_defined ty a b :
  in_range ty a -> b <> 0 -> ~ quotient_overflows ty a b ->
  builtin_rem (promote ty) a b = Some (Z.rem a b).
Proof.
  intros Ha Hb Hov. unfold builtin_rem.
  destruct (Z.eqb_spec b 0); [done|].
  destruct (is_signed (promote ty) && (a =? int_min (promote ty)) && (b =? -1)) eqn:E;
    [|done].
  exfalso. apply andb_prop in E as [[Hs Hmin]%andb_prop H1].
  apply Z.eqb_eq in Hmin, H1.
  destruct ty; unfold in_range, int_min, int_max, promote in *; cbn in *;
    try lia; try discriminate;
    apply Hov; unfold quotient_overflows, int_min; cbn; auto.
Qed.

Lemma mod_int_rem ty a b :
  in_range ty a -> in_range ty b -> b <> 0 -> ~ quotient_overflows ty a b ->
  mod_int ty a b = Some (Z.rem a b).
Proof.
  intros Ha Hb Hb0 Hov. unfold mod_int.
  rewrite builtin_rem_defined by done. cbn.
  by rewrite convert_in_range by (by apply rem_in_range).
Qed.

(** Outside these conditions [a % b] is undefined. *)
Lemma mod_int_undefined ty a b :
  b = 0 \/ quotient_overflows ty a b -> mod_int ty a b = None.
Proof.
  unfold mod_int, builtin_rem. intros [->|(Hty & -> & ->)]; [done|].
  destruct Hty as [-> | ->]; reflexivity.
Qed.

(** ** GenericModulo: the floating instances *)

Lemma digits2_pos_mono p q :
  (p <= q)%positive -> Z.pos (digits2_pos p) <= Z.pos (digits2_pos q).
Proof.
  intros Hpq.
  pose proof (digits2_pos_bounds p) as [Hl _].
  pose proof (digits2_pos_bounds q) as [_ Hu].
  assert (Z.pos (digits2_pos p) - 1 < Z.pos (digits2_pos q)); [|lia].
  apply (Z.pow_lt_mono_r_iff 2); lia.
Qed.

Lemma digits2_pos_shift p k :
  0 <= k -> Z.pos (digits2_pos (Z.to_pos (Z.pos p * 2 ^ k))) = Z.pos (digits2_pos p) + k.
Proof.
  intros Hk. pose proof (digits2_pos_bounds p) as [Hl Hu]. pose proof (pow2_pos k Hk).
  apply digits2_pos_unique. rewrite Z2Pos.id by lia.
  replace (Z.pos (digits2_pos p) + k - 1) with (Z.pos (digits2_pos p) - 1 + k) by lia.
  rewrite !Z.pow_add_r by lia. nia.
Qed.

(** Aligning to a smaller exponent keeps the value. *)
Lemma shl_align_value m e ez :
  ez <= e -> Z.pos (fst (shl_align m e ez)) = Z.pos m * 2 ^ (e - ez).
Proof.
  intros He. unfold shl_align.
  destruct (ez - e) as [|k|k] eqn:Hk; cbn [fst]; try lia.
  - replace (e - ez) with 0 by lia. lia.
  - rewrite iter_xO_Z. do 2 f_equal. lia.
Qed.

Section FmodFacts.
Variables prec emax : Z.

(** A canonical mantissa has at most [prec] bits. *)
Lemma bounded_inv m e :
  bounded prec emax m e = true ->
  Z.pos (digits2_pos m) <= prec /\ emin prec emax <= e <= emax - prec.
Proof.
  unfold bounded, canonical_mantissa, fexp.
  intros [H1 H2]%andb_prop. apply Z.eqb_eq in H1. apply Z.leb_le in H2. lia.
Qed.

(** A mantissa of at most [prec] bits above [emin] is only re-aligned. *)
Lemma binary_round_exact s r e :
  Z.pos (digits2_pos r) <= prec -> emin prec emax <= e <= emax - prec ->
  let e' := fexp prec emax (Z.pos (digits2_pos r) + e) in
  e' <= e /\
  binary_round prec emax s r e = S754_finite s (Z.to_pos (Z.pos r * 2 ^ (e - e'))) e'.
Proof.
  intros Hd He e'.
  assert (He' : e' <= e) by (unfold e', fexp; lia).
  split; [done|].
  unfold binary_round. fold e'.
  pose proof (shl_align_value r e e' He') as Hv.
  assert (Hsnd : snd (shl_align r e e') = e').
  { unfold shl_align. destruct (e' - e) eqn:Hk; cbn [snd]; lia. }
  destruct (shl_align r e e') as [mz ez]. cbn [fst snd] in *. subst ez.
  assert (Hmz : mz = Z.to_pos (Z.pos r * 2 ^ (e - e'))) by (rewrite <- Hv; by rewrite Pos2Z.id).
  assert (Hdz : Z.pos (digits2_pos mz) = Z.pos (digits2_pos r) + (e - e')).
  { rewrite Hmz. apply digits2_pos_shift. lia. }
  assert (Hf : fexp prec emax (Z.pos (digits2_pos mz) + e') - e' = 0).
  { rewrite Hdz. replace (Z.pos (digits2_pos r) + (e - e') + e') with (Z.pos (digits2_pos r) + e) by lia.
    fold e'. lia. }
  unfold binary_round_aux, shr_fexp. cbn [Zdigits2 shr_record_of_loc].
  rewrite Hf. cbn [shr shr_m loc_of_shr_record round_nearest_even Zdigits2 shr_record_of_loc].
  rewrite Hf. cbn [shr shr_m].
  replace (e' <=? emax - prec) with true by (symmetry; apply Z.leb_le; lia).
  by rewrite Hmz.
Qed.

(** [fmod] on two finite non-zero numbers. *)
Lemma fmod_finite sx mx ex sy my ey :
  bounded prec emax mx ex = true -> bounded prec emax my ey = true ->
  let x := S754_finite sx mx ex in
  let y := S754_finite sy my ey in
  units prec emax (fmod prec emax x y) = Z.rem (units prec emax x) (units prec emax y)
  /\ sign_bit (fmod prec emax x y) = Some sx
  /\ is_finite (fmod prec emax x y) = true.
Proof.
  intros [Hdx Hex]%bounded_inv [Hdy Hey]%bounded_inv x y.
  unfold x, y, fmod. cbv zeta.
  set (ez := Z.min ex ey).
  rewrite !shl_align_value by lia.
  set (ax := Z.pos mx * 2 ^ (ex - ez)). set (ay := Z.pos my * 2 ^ (ey - ez)).
  pose proof (pow2_pos (ex - ez) ltac:(lia)). pose proof (pow2_pos (ey - ez) ltac:(lia)).
  assert (Hax : 0 < ax) by (unfold ax; lia). assert (Hay : 0 < ay) by (unfold ay; lia).
  pose proof (pow2_pos (ez - emin prec emax) ltac:(lia)) as Hc.
  assert (Hux : units prec emax (S754_finite sx mx ex) = cond_Zopp sx ax * 2 ^ (ez - emin prec emax)).
  { unfold units, ax. replace (ex - emin prec emax) with ((ex - ez) + (ez - emin prec emax)) by lia.
    rewrite Z.pow_add_r by lia. destruct sx; cbn [cond_Zopp]; lia. }
  assert (Huy : units prec emax (S754_finite sy my ey) = cond_Zopp sy ay * 2 ^ (ez - emin prec emax)).
  { unfold units, ay. replace (ey - emin prec emax) with ((ey - ez) + (ez - emin prec emax)) by lia.
    rewrite Z.pow_add_r by lia. destruct sy; cbn [cond_Zopp]; lia. }
  rewrite Hux, Huy.
  rewrite Z.mul_rem_distr_r by (destruct sy; cbn [cond_Zopp]; lia).
  assert (Hrem : Z.rem (cond_Zopp sx ax) (cond_Zopp sy ay) = cond_Zopp sx (Z.rem ax ay)).
  { destruct sx, sy; cbn [cond_Zopp];
      rewrite ?Z.rem_opp_r, ?Z.rem_opp_l by lia; reflexivity. }
  rewrite Hrem.
  pose proof (Z.rem_bound_pos ax ay ltac:(lia) Hay) as Hr.
  destruct (Z.rem ax ay) as [|r|r] eqn:Er; try lia.
  - cbn [units sign_bit is_finite]. destruct sx; cbn [cond_Zopp]; auto.
  - assert (Hdr : Z.pos (digits2_pos r) <= prec).
    { destruct (Z.le_ge_cases ex ey).
      - (* the dividend is not shifted *)
        assert (ax = Z.pos mx) by (unfold ax; replace (ex - ez) with 0 by lia; lia).
        pose proof (Z.rem_le ax ay ltac:(lia) Hay). rewrite Er in *.
        etrans; [apply (digits2_pos_mono r mx); lia|done].
      - assert (ay = Z.pos my) by (unfold ay; replace (ey - ez) with 0 by lia; lia).
        etrans; [apply (digits2_pos_mono r my); lia|done]. }
    destruct (binary_round_exact sx r ez Hdr ltac:(lia)) as [He' ->].
    set (e' := fexp prec emax (Z.pos (digits2_pos r) + ez)) in *.
    assert (emin prec emax <= e') by (unfold e', fexp; lia).
    pose proof (pow2_pos (ez - e') ltac:(lia)).
    cbn [units sign_bit is_finite]. split; [|done].
    rewrite Z2Pos.id by lia.
    replace (ez - emin prec emax) with ((ez - e') + (e' - emin prec emax)) by lia.
    rewrite Z.pow_add_r by lia. destruct sx; cbn [cond_Zopp]; lia.
Qed.

Lemma fmod_spec x y :
  valid_binary prec emax x = true -> valid_binary prec emax y = true ->
  is_finite x = true -> is_nonzero_finite y = true ->
  units prec emax (fmod prec emax x y)
  = Z.rem (units prec emax x) (units prec emax y)
  /\ sign_bit (fmod prec emax x y) = sign_bit x
  /\ is_finite (fmod prec emax x y) = true.
Proof.
  intros Hx Hy Fx Fy.
  destruct y as [| | |sy my ey]; try discriminate.
  destruct x as [sx| | |sx mx ex]; try discriminate.
  - cbn. done.
  - cbn [valid_binary] in Hx, Hy. by apply fmod_finite.
Qed.
End FmodFacts.

(** Every pair of floating-point operands falls under one of the three
    cases of [fmod], and the two cases without arithmetic are these. *)
Lemma fmod_special prec emax a b :
  (is_nan a || is_nan b || is_infinite a || is_zero b = true ->
   fmod prec emax a b = S754_nan)
  /\ (is_finite a = true -> is_infinite b = true -> fmod prec emax a b = a)
  /\ (is_nan a || is_nan b || is_infinite a || is_zero b
      || is_finite a && is_infinite b
      || is_finite a && is_nonzero_finite b = true).
Proof. destruct a, b; cbn; repeat split; solve [done | intros; discriminate]. Qed.

(** The smallest [int] over [-1]: both operands are of the type and the
    divisor is not zero, the truncating remainder is [0], and [a % b] has
    no value (the quotient 2^31 is not an [int]; the division traps). *)
Lemma mod_int32_min_over_minus_one_not_remainder :
  in_range int32_t (-2147483648) /\ in_range int32_t (-1) /\ -1 <> 0
  /\ Z.rem (-2147483648) (-1) = 0
  /\ mod_int int32_t (-2147483648) (-1) = None
  /\ mod_int int32_t (-2147483648) (-1) <> Some (Z.rem (-2147483648) (-1)).
Proof.
  repeat split; try done; unfold in_range, int_min, int_max; cbn; lia.
Qed.

(** C5, amended. For every pair of operands of an integral type,
    [mod(a, b)] is the truncating remainder of [a] by [b] when [b] is not
    zero and the pair is not the smallest [int] or [long] over [-1], and
    has no value in these two cases.  For every pair of [float]s and of
    [double]s, [mod(a, b)] is the remainder of the truncated division with
    the sign of [a]: exact for a finite [a] and a finite non-zero [b]
    (also when it is zero), [a] itself for a finite [a] and an infinite
    [b], NaN when an operand is NaN, [a] is infinite or [b] is zero; and
    these cases cover every pair. *)
Theorem mod_truncating_remainder_where_defined :
  (forall ty a b, in_range ty a -> in_range ty b ->
      (b <> 0 -> ~ quotient_overflows ty a b -> mod_int ty a b = Some (Z.rem a b))
      /\ (b = 0 \/ quotient_overflows ty a b -> mod_int ty a b = None))
  /\ (forall a b,
      (is_nan a || is_nan b || is_infinite a || is_zero b = true ->
       mod_float a b = S754_nan)
      /\ (is_finite a = true -> is_infinite b = true -> mod_float a b = a)
      /\ (valid_binary 24 128 a = true -> valid_binary 24 128 b = true ->
          is_finite a = true -> is_nonzero_finite b = true ->
          units 24 128 (mod_float a b) = Z.rem (units 24 128 a) (units 24 128 b)
          /\ sign_bit (mod_float a b) = sign_bit a
          /\ is_finite (mod_float a b) = true)
      /\ (is_nan a || is_nan b || is_infinite a || is_zero b
          || is_finite a && is_infinite b
          || is_finite a && is_nonzero_finite b = true))
  /\ (forall a b,
      (is_nan a || is_nan b || is_infinite a || is_zero b = true ->
       mod_double a b = S754_nan)
      /\ (is_finite a = true -> is_infinite b = true -> mod_double a b = a)
      /\ (valid_binary 53 1024 a = true -> valid_binary 53 1024 b = true ->
          is_finite a = true -> is_nonzero_finite b = true ->
          units 53 1024 (mod_double a b) = Z.rem (units 53 1024 a) (units 53 1024 b)
          /\ sign_bit (mod_double a b) = sign_bit a
          /\ is_finite (mod_double a b) = true)
      /\ (is_nan a || is_nan b || is_infinite a || is_zero b
          || is_finite a && is_infinite b
          || is_finite a && is_nonzero_finite b = true)).
Proof.
  split; [|split].
  - intros ty a b Ha Hb. split.
    + by apply mod_int_rem.
    + apply mod_int_undefined.
  - intros a b. destruct (fmod_special 24 128 a b) as (Hnan & Hinf & Hall).
    split; [exact Hnan|]. split; [exact Hinf|]. split; [|exact Hall].
    apply fmod_spec.
  - intros a b. destruct (fmod_special 53 1024 a b) as (Hnan & Hinf & Hall).
    split; [exact Hnan|]. split; [exact Hinf|]. split; [|exact Hall].
    apply fmod_spec.
Qed.

(** -7 % 2 and 7 % 0 on [int]; fmod(-5.5f, 2.0f) = -1.5f,
    fmod(-5.5f, inf) = -5.5f and fmod(inf, 2.0f) = NaN. *)
Lemma mod_truncating_remainder_where_defined_witness :
  mod_int int32_t (-7) 2 = Some (-1)
  /\ mod_int int32_t 7 0 = None
  /\ units 24 128 (mod_float (S754_finite true 11534336 (-21))
                             (S754_finite false 8388608 (-22)))
     = Z.rem (units 24 128 (S754_finite true 11534336 (-21)))
             (units 24 128 (S754_finite false 8388608 (-22)))
  /\ mod_float (S754_finite true 11534336 (-21)) (S754_infinity false)
     = S754_finite true 11534336 (-21)
  /\ mod_float (S754_infinity false) (S754_finite false 8388608 (-22)) = S754_nan.
Proof.
  destruct mod_truncating_remainder_where_defined as (Hint & Hfloat & _).
  split; [|split; [|split; [|split]]].
  - apply (Hint int32_t (-7) 2).
    + unfold in_range, int_min, int_max; cbn; lia.
    + unfold in_range, int_min, int_max; cbn; lia.
    + lia.
    + unfold quotient_overflows, int_min; cbn; lia.
  - apply (Hint int32_t 7 0).
    + unfold in_range, int_min, int_max; cbn; lia.
    + unfold in_range, int_min, int_max; cbn; lia.
    + left; reflexivity.
  - apply (Hfloat (S754_finite true 11534336 (-21)) (S754_finite false 8388608 (-22)));
      reflexivity.
  - apply (Hfloat (S754_finite true 11534336 (-21)) (S754_infinity false));
      reflexivity.
  - apply (Hfloat (S754_infinity false) (S754_finite false 8388608 (-22)));
      reflexivity.
Defined.

Example mod_float_example :
  mod_float (S754_finite true 11534336 (-21)) (S754_finite false 8388608 (-22))
  = S754_finite true 12582912 (-23).
Proof. reflexivity. Qed.

Example mod_int_min_over_minus_one : mod_int int32_t (-2147483648) (-1) = None.
Proof. reflexivity. Qed.

Example mod_int8_min_over_minus_one : mod_int int8_t (-128) (-1) = Some 0.
Proof. reflexivity. Qed.

(** ** CounterRandomSource: the two draws *)

Section PhiloxObjectFacts.
Variable engine : Type.
Variable Philox4_32 : Z -> Z -> Z -> engine.
Variable engine_call : engine -> Z * engine.
Variable engine_randn : Z -> engine -> spec_float * engine.

(** An engine object does carry state from one call on it to the next:
    the second word drawn from the object at [this] is the one of the
    engine the first call left there. *)
Lemma Philox4_32_call_twice this e (w : gmap Z engine) :
  w !! this = Some e ->
  then_again engine (Philox4_32_call engine engine_call this) w
  = Some (fst (engine_call e), fst (engine_call (snd (engine_call e))),
          <[this := snd (engine_call (snd (engine_call e)))]> w).
Proof.
  intros He. unfold then_again, Philox4_32_call.
  rewrite He. cbn. rewrite lookup_insert_eq. cbn.
  by rewrite insert_insert_eq.
Qed.

(** Run at a free address, [normalized_rand_cpu] returns the value of
    the engine built from its arguments and leaves the memory as it
    found it. *)
Lemma normalized_rand_cpu_at_spec this seed offset (w : gmap Z engine) :
  w !! this = None ->
  normalized_rand_cpu_at engine Philox4_32 engine_call this seed offset w
  = Some (normalized_rand_cpu engine Philox4_32 engine_call seed offset, w).
Proof.
  intros Hfree.
  unfold normalized_rand_cpu_at, Philox4_32_call, Philox4_32_construct,
    Philox4_32_destroy, normalized_rand_cpu.
  rewrite lookup_insert_eq. cbn.
  by rewrite insert_insert_eq, delete_insert_eq, delete_id.
Qed.

Lemma randn_cpu_at_spec this seed offset (w : gmap Z engine) :
  w !! this = None ->
  randn_cpu_at engine Philox4_32 engine_randn this seed offset w
  = Some (randn_cpu engine Philox4_32 engine_randn seed offset, w).
Proof.
  intros Hfree.
  unfold randn_cpu_at, Philox4_32_randn, Philox4_32_construct,
    Philox4_32_destroy, randn_cpu.
  rewrite lookup_insert_eq. cbn.
  by rewrite insert_insert_eq, delete_insert_eq, delete_id.
Qed.

(** Over a live engine the call is not neutral: the engine that lived at
    [this] is gone afterwards. *)
Lemma normalized_rand_cpu_at_clobbers this seed offset e (w : gmap Z engine) :
  w !! this = Some e ->
  exists r w',
    normalized_rand_cpu_at engine Philox4_32 engine_call this seed offset w
    = Some (r, w')
    /\ w' !! this = None /\ w' <> w.
Proof.
  intros He.
  unfold normalized_rand_cpu_at, Philox4_32_call, Philox4_32_construct,
    Philox4_32_destroy.
  rewrite lookup_insert_eq. cbn. eexists _, _. split; [done|].
  split; [by rewrite lookup_delete_eq|].
  intros Heq. rewrite <- Heq, lookup_delete_eq in He. done.
Qed.

End PhiloxObjectFacts.

(** C7. Both generators are functions of [(seed, offset)] alone and carry
    no state between calls.  With the engine an object in memory, a call
    at any free address [this1] in any memory [w1] and a call at any free
    address [this2] in any memory [w2] return the same number, whatever
    engines live in the two memories, and each leaves its memory exactly
    as it found it; so a call followed by a second call in the memory the
    first leaves behind returns the same bit pattern twice. *)
Theorem rand_cpu_stateless
    (engine : Type) (Philox4_32 : Z -> Z -> Z -> engine)
    (engine_call : engine -> Z * engine)
    (engine_randn : Z -> engine -> spec_float * engine)
    (seed offset this1 this2 : Z) (w1 w2 : gmap Z engine) :
  w1 !! this1 = None -> w2 !! this2 = None ->
  exists u n : spec_float,
    normalized_rand_cpu_at engine Philox4_32 engine_call this1 seed offset w1
    = Some (u, w1)
    /\ normalized_rand_cpu_at engine Philox4_32 engine_call this2 seed offset w2
       = Some (u, w2)
    /\ randn_cpu_at engine Philox4_32 engine_randn this1 seed offset w1
       = Some (n, w1)
    /\ randn_cpu_at engine Philox4_32 engine_randn this2 seed offset w2
       = Some (n, w2)
    /\ then_again engine
         (fun w => '(r, w') ← normalized_rand_cpu_at engine Philox4_32 engine_call
                                this1 seed offset w;
                   Some (B32.to_bits r, w')) w1
       = Some (B32.to_bits u, B32.to_bits u, w1)
    /\ then_again engine
         (fun w => '(r, w') ← randn_cpu_at engine Philox4_32 engine_randn
                                this1 seed offset w;
                   Some (B32.to_bits r, w')) w1
       = Some (B32.to_bits n, B32.to_bits n, w1)
    /\ u = uint32_to_uniform_float (fst (engine_call (Philox4_32 seed 0 offset)))
    /\ n = fst (engine_randn 10 (Philox4_32 seed 0 offset)).
Proof.
  intros H1 H2.
  exists (normalized_rand_cpu engine Philox4_32 engine_call seed offset),
         (randn_cpu engine Philox4_32 engine_randn seed offset).
  unfold then_again.
  rewrite !normalized_rand_cpu_at_spec, !randn_cpu_at_spec by done. cbn.
  rewrite !normalized_rand_cpu_at_spec, !randn_cpu_at_spec by done. cbn.
  repeat split.
Qed.

(** An engine whose state is its counter and whose word is
    [seed + subsequence + counter]; the first memory is empty, the second
    holds an engine of another caller at address 5. *)
Lemma rand_cpu_stateless_witness :
  exists u n : spec_float,
    normalized_rand_cpu_at Z (fun s q o => s + q + o) (fun e => (e, e + 1))
      0 42 7 ∅ = Some (u, ∅)
    /\ normalized_rand_cpu_at Z (fun s q o => s + q + o) (fun e => (e, e + 1))
         9 42 7 {[ 5 := 1000 ]} = Some (u, {[ 5 := 1000 ]})
    /\ B32.to_bits u = 0x32C3FFFF
    /\ randn_cpu_at Z (fun s q o => s + q + o) (fun _ e => (B32.of_Z e, e + 2))
         0 42 7 ∅ = Some (n, ∅)
    /\ n = B32.of_Z 49.
Proof.
  destruct (rand_cpu_stateless Z (fun s q o => s + q + o) (fun e => (e, e + 1))
              (fun _ e => (B32.of_Z e, e + 2)) 42 7 0 9 ∅ {[ 5 := 1000 ]})
    as (u & n & Hu1 & Hu2 & Hn1 & _ & _ & _ & Hu & Hn).
  - reflexivity.
  - reflexivity.
  - exists u, n. split; [exact Hu1|]. split; [exact Hu2|].
    split; [rewrite Hu; reflexivity|]. split; [exact Hn1|]. exact Hn.
Defined.

(** ** IntegerAliasMap *)

(** C9. The alias of every scalar type has the size of the type: 4 bytes
    for [float], 8 for [double], 2 for both 16-bit types, the type itself
    otherwise; and [atomic_add<T>] compiles exactly when the atomic of
    the alias has the size of [T], a mismatch being the build error of
    the [static_assert]. *)
Theorem AsIntegerType_same_size :
  (forall T, sizeof (AsIntegerType T) = sizeof T)
  /\ (AsIntegerType TFloat = TUInt32 /\ sizeof TFloat = 4 /\ sizeof TUInt32 = 4)
  /\ (AsIntegerType TDouble = TUInt64 /\ sizeof TDouble = 8 /\ sizeof TUInt64 = 8)
  /\ (AsIntegerType THalf = TUInt16 /\ AsIntegerType TBFloat16 = TUInt16
      /\ sizeof THalf = 2 /\ sizeof TBFloat16 = 2 /\ sizeof TUInt16 = 2)
  /\ (forall T, is_floating T = false -> AsIntegerType T = T)
  /\ (forall sizeof_atomic T,
        atomic_add_static_assert sizeof_atomic T = Compiles
        <-> sizeof_atomic (AsIntegerType T) = sizeof T)
  /\ (forall sizeof_atomic T,
        sizeof_atomic (AsIntegerType T) <> sizeof T ->
        atomic_add_static_assert sizeof_atomic T
        = BuildError ("std::atomic issue")%string)
  /\ (forall T, atomic_add_static_assert sizeof_atomic_lock_free T = Compiles).
Proof.
  split; [by intros []|]. do 3 (split; [done|]).
  split; [by intros []|]. split; [|split].
  - intros sa T. unfold atomic_add_static_assert.
    destruct (Z.eqb_spec (sa (AsIntegerType T)) (sizeof T)); split; done.
  - intros sa T Hne. unfold atomic_add_static_assert.
    destruct (Z.eqb_spec (sa (AsIntegerType T)) (sizeof T)); done.
  - by intros [].
Qed.

(** ** AtomicFloatAdd *)

Section AtomicAddFacts.
Context {V : Type} `{EqDecision V}.
Variable plus : V -> V -> V.

(** A call that nobody disturbs: load, add, one compare-exchange. *)
Lemma atomic_add_alone addr offset m v fuel :
  m !! addr = Some v -> (4 <= fuel)%nat ->
  atomic_add plus fuel addr offset m
  = Some (<[addr := plus v offset]> m, {| cas_calls := 1; loop_entries := 0 |}).
Proof.
  intros Hv Hf. do 4 (destruct fuel as [|fuel]; [lia|]).
  unfold atomic_add. cbn [atomic_add_from is_returned step].
  rewrite Hv. cbn. rewrite Hv. cbn.
  rewrite decide_True by done. cbn. reflexivity.
Qed.

(** With too little fuel the run does not reach the return. *)
Lemma atomic_add_fuel addr offset m fuel :
  (fuel < 4)%nat -> atomic_add plus fuel addr offset m = None.
Proof.
  intros Hf. unfold atomic_add.
  destruct fuel as [|[|[|[|fuel]]]]; try lia; cbn; try done;
    destruct (m !! addr) as [v|]; cbn; try done.
  destruct (m !! addr) as [w|]; cbn; [|done].
  destruct (decide (w = v)); done.
Qed.

Lemma sum_list_insert (l : list nat) i x y :
  l !! i = Some x -> (sum_list (<[i := y]> l) + x = sum_list l + y)%nat.
Proof.
  revert i. induction l as [|a l IH]; intros [|i] Hl; simplify_eq/=; try lia.
  specialize (IH _ Hl). lia.
Qed.

Lemma total_completed_insert (s : @cstate V) i t t' m' :
  threads s !! i = Some t ->
  (total_completed {| heap := m'; threads := <[i := t']> (threads s) |} + completed t
   = total_completed s + completed t')%nat.
Proof.
  intros Ht. unfold total_completed. cbn [threads].
  rewrite list_fmap_insert. apply sum_list_insert.
  by rewrite list_lookup_fmap, Ht.
Qed.

(** Every step of every thread keeps the invariant. *)
Lemma inv_step addr offset v0 M i s s' :
  inv plus addr offset v0 M s -> cstep plus addr offset i s = Some s' ->
  inv plus addr offset v0 M s'.
Proof.
  intros [Hheap Hall] Hstep. unfold cstep in Hstep.
  destruct (threads s !! i) as [t|] eqn:Ht; [|done]. cbn in Hstep.
  destruct (thread_step plus addr offset (heap s) t) as [[m' t']|] eqn:Hts; [|done].
  cbn in Hstep. injection Hstep as <-.
  pose proof (total_completed_insert s i t t' m' Ht) as Hsum.
  pose proof (Forall_lookup_1 _ _ _ _ Hall Ht) as [Hcnt Hfr].
  assert (Hgoal : m' !! addr = Some (Nat.iter (total_completed s + completed t' - completed t)
                                      (fun v => plus v offset) v0)
                  /\ thread_ok plus offset M t' /\ (completed t <= completed t')%nat).
  { unfold thread_step in Hts. destruct t as [td f dn]. cbn [fr todo completed] in *.
    destruct f as [|e|e d|e d|e d|]; cbn [step] in Hts.
    - destruct (heap s !! addr) as [v|] eqn:Hv; [|done]. cbn in Hts. injection Hts as <- <-.
      cbn [completed]. replace (total_completed s + dn - dn)%nat with (total_completed s) by lia.
      repeat split; cbn in *; auto; first [lia | congruence].
    - cbn in Hts. injection Hts as <- <-.
      cbn [completed is_returned]. replace (total_completed s + dn - dn)%nat with (total_completed s) by lia.
      repeat split; cbn in *; auto; first [lia | congruence].
    - destruct (heap s !! addr) as [cur|] eqn:Hv; [|done]. cbn in Hts.
      destruct (decide (cur = e)) as [->|Hne]; cbn in Hts; injection Hts as <- <-.
      + cbn [completed is_returned]. rewrite lookup_insert_eq.
        replace (total_completed s + S dn - dn)%nat with (S (total_completed s)) by lia.
        rewrite Nat.iter_succ. cbn in Hfr. subst d.
        injection Hheap as <-.
        repeat split; cbn in *; auto; first [lia | congruence].
      + cbn [completed is_returned]. replace (total_completed s + dn - dn)%nat with (total_completed s) by lia.
        repeat split; cbn in *; auto; first [lia | congruence].
    - destruct (heap s !! addr) as [v|] eqn:Hv; [|done]. cbn in Hts. injection Hts as <- <-.
      cbn [completed is_returned]. replace (total_completed s + dn - dn)%nat with (total_completed s) by lia.
      repeat split; cbn in *; auto; first [lia | congruence].
    - cbn in Hts. injection Hts as <- <-.
      cbn [completed is_returned]. replace (total_completed s + dn - dn)%nat with (total_completed s) by lia.
      repeat split; cbn in *; auto; first [lia | congruence].
    - destruct td as [|k]; [done|]. injection Hts as <- <-.
      cbn [completed]. replace (total_completed s + dn - dn)%nat with (total_completed s) by lia.
      repeat split; cbn in *; auto; first [lia | congruence]. }
  destruct Hgoal as (Hm' & Hok & Hle).
  split; cbn [heap threads].
  - rewrite Hm'. do 2 f_equal. lia.
  - apply Forall_insert; done.
Qed.

Lemma inv_run addr offset v0 M sched s s' :
  inv plus addr offset v0 M s -> run_schedule plus addr offset sched s = Some s' ->
  inv plus addr offset v0 M s'.
Proof.
  revert s. induction sched as [|i sched IH]; intros s Hinv Hrun; cbn in Hrun.
  - by injection Hrun as <-.
  - destruct (cstep plus addr offset i s) as [s1|] eqn:Hs1; [|done]. cbn in Hrun.
    eapply IH; [|done]. by eapply inv_step.
Qed.

Lemma cstep_length addr offset i s s' :
  cstep plus addr offset i s = Some s' -> length (threads s') = length (threads s).
Proof.
  unfold cstep. intros Hs.
  destruct (threads s !! i) as [t|]; [|done]. cbn in Hs.
  destruct (thread_step plus addr offset (heap s) t) as [[m' t']|]; [|done].
  cbn in Hs. injection Hs as <-. cbn. by rewrite length_insert.
Qed.

Lemma run_schedule_length addr offset sched s s' :
  run_schedule plus addr offset sched s = Some s' ->
  length (threads s') = length (threads s).
Proof.
  revert s. induction sched as [|i sched IH]; intros s Hrun; cbn in Hrun.
  - by injection Hrun as <-.
  - destruct (cstep plus addr offset i s) as [s1|] eqn:Hs1; [|done]. cbn in Hrun.
    rewrite (IH _ Hrun). by eapply cstep_length.
Qed.

Lemma inv_spawn addr offset v0 N M m :
  m !! addr = Some v0 -> inv plus addr offset v0 M (spawn N M m).
Proof.
  intros Hm. unfold inv, spawn, total_completed. cbn [heap threads]. split.
  - rewrite fmap_replicate. cbn [completed].
    replace (sum_list (replicate N 0%nat)) with 0%nat; [done|].
    induction N; cbn; auto.
  - apply Forall_replicate. split; cbn; [lia|done].
Qed.

(** A finished thread has completed its [M] calls. *)
Lemma finished_done offset M (ts : list (@thread V)) :
  Forall (thread_ok plus offset M) ts -> forallb thread_finished ts = true ->
  sum_list (completed <$> ts) = (length ts * M)%nat.
Proof.
  induction 1 as [|t ts [Hcnt _] _ IH]; cbn; [done|].
  intros [Hfin Hrest]%andb_prop. rewrite (IH Hrest).
  unfold thread_finished in Hfin. apply andb_prop in Hfin as [Hr Ht].
  apply Nat.eqb_eq in Ht. unfold in_flight in Hcnt. rewrite Hr, Ht in Hcnt. lia.
Qed.

(** The cell holds one addition per returned call, for any [T] and any
    interleaving. *)
Theorem run_schedule_sum addr offset v0 N M m sched s :
  m !! addr = Some v0 ->
  run_schedule plus addr offset sched (spawn N M m) = Some s ->
  all_finished s = true ->
  heap s !! addr = Some (Nat.iter (N * M) (fun v => plus v offset) v0)
  /\ Forall (fun t => completed t = M) (threads s).
Proof.
  intros Hm Hrun Hfin.
  pose proof (inv_run addr offset v0 M sched _ _ (inv_spawn addr offset v0 N M m Hm) Hrun)
    as [Hheap Hall].
  pose proof (run_schedule_length _ _ _ _ _ Hrun) as Hlen.
  cbn [spawn threads] in Hlen. rewrite length_replicate in Hlen.
  split.
  - rewrite Hheap. unfold total_completed.
    rewrite (finished_done offset M _ Hall Hfin), Hlen. done.
  - unfold all_finished in Hfin. rewrite forallb_forall in Hfin.
    apply Forall_forall. intros t Ht.
    rewrite Forall_forall in Hall. destruct (Hall t Ht) as [Hcnt _].
    specialize (Hfin t). rewrite <- list_elem_of_In in Hfin. specialize (Hfin Ht).
    unfold thread_finished in Hfin. apply andb_prop in Hfin as [Hr Ht0].
    apply Nat.eqb_eq in Ht0. unfold in_flight in Hcnt. rewrite Hr, Ht0 in Hcnt. lia.
Qed.

Lemma run_schedule_app addr offset a b s :
  run_schedule plus addr offset (a ++ b) s
  = s' ← run_schedule plus addr offset a s; run_schedule plus addr offset b s'.
Proof.
  revert s. induction a as [|i a IH]; intros s; cbn; [done|].
  destruct (cstep plus addr offset i s); cbn; [apply IH|done].
Qed.

Lemma cstep_eq addr offset i (s : @cstate V) t m' t' :
  threads s !! i = Some t ->
  thread_step plus addr offset (heap s) t = Some (m', t') ->
  cstep plus addr offset i s = Some {| heap := m'; threads := <[i := t']> (threads s) |}.
Proof. intros Ht Hs. unfold cstep. rewrite Ht. cbn. rewrite Hs. done. Qed.

(** Four steps of thread [i] in a row are one undisturbed call. *)
Lemma one_call addr offset i (s : @cstate V) k d v :
  threads s !! i = Some {| todo := S k; fr := Returned; completed := d |} ->
  heap s !! addr = Some v ->
  run_schedule plus addr offset [i; i; i; i] s
  = Some {| heap := <[addr := plus v offset]> (heap s);
            threads := <[i := {| todo := k; fr := Returned; completed := S d |}]> (threads s) |}.
Proof.
  intros Ht Hv. pose proof (lookup_lt_Some _ _ _ Ht) as Hi.
  cbn [run_schedule].
  rewrite (cstep_eq addr offset i s _ (heap s) {| todo := k; fr := AtLoad; completed := d |} Ht)
    by done.
  cbn [mbind option_bind].
  rewrite (cstep_eq addr offset i _ {| todo := k; fr := AtLoad; completed := d |}
             (heap s) {| todo := k; fr := AtCompute v; completed := d |}); cycle 1.
  { cbn. by apply list_lookup_insert_eq. }
  { unfold thread_step. cbn. by rewrite Hv. }
  cbn [mbind option_bind threads heap]. rewrite list_insert_insert_eq.
  rewrite (cstep_eq addr offset i _ {| todo := k; fr := AtCompute v; completed := d |}
             (heap s) {| todo := k; fr := AtCas v (plus v offset); completed := d |}); cycle 1.
  { cbn. by apply list_lookup_insert_eq. }
  { done. }
  cbn [mbind option_bind threads heap]. rewrite list_insert_insert_eq.
  rewrite (cstep_eq addr offset i _ {| todo := k; fr := AtCas v (plus v offset); completed := d |}
             (<[addr := plus v offset]> (heap s))
             {| todo := k; fr := Returned; completed := S d |}); cycle 1.
  { cbn. by apply list_lookup_insert_eq. }
  { unfold thread_step. cbn. rewrite Hv. cbn. by rewrite decide_True. }
  cbn [mbind option_bind threads heap]. by rewrite list_insert_insert_eq.
Qed.

(** Thread [i] running alone through its [k] calls. *)
Lemma solo_calls addr offset i k : forall (s : @cstate V) d v,
  threads s !! i = Some {| todo := k; fr := Returned; completed := d |} ->
  heap s !! addr = Some v ->
  exists s',
    run_schedule plus addr offset (replicate (4 * k) i) s = Some s'
    /\ heap s' !! addr = Some (Nat.iter k (fun x => plus x offset) v)
    /\ threads s' = <[i := {| todo := 0; fr := Returned; completed := (d + k)%nat |}]> (threads s).
Proof.
  induction k as [|k IH]; intros s d v Ht Hv.
  - exists s. cbn. repeat split; [done|].
    rewrite Nat.add_0_r. by rewrite list_insert_id.
  - replace (4 * S k)%nat with (4 + 4 * k)%nat by lia.
    rewrite replicate_add, run_schedule_app. cbn [replicate].
    rewrite (one_call addr offset i s k d v Ht Hv). cbn [mbind option_bind].
    pose proof (lookup_lt_Some _ _ _ Ht) as Hi.
    edestruct (IH {| heap := <[addr:=plus v offset]> (heap s);
                     threads := <[i:={| todo := k; fr := Returned; completed := S d |}]> (threads s) |}
                  (S d) (plus v offset)) as (s' & Hrun & Hh & Hth).
    { cbn. by rewrite list_lookup_insert_eq. }
    { cbn. by rewrite lookup_insert_eq. }
    exists s'. split; [done|]. split.
    + rewrite Hh. f_equal. by rewrite Nat.iter_succ_r.
    + rewrite Hth. cbn [threads]. rewrite list_insert_insert_eq.
      do 2 f_equal. lia.
Qed.

Lemma solo_threads addr offset M n : forall pre (s : @cstate V) v,
  threads s = pre ++ replicate n {| todo := M; fr := Returned; completed := 0 |} ->
  forallb thread_finished pre = true ->
  heap s !! addr = Some v ->
  exists s',
    run_schedule plus addr offset
      (flat_map (fun i => replicate (4 * M) i) (seq (length pre) n)) s = Some s'
    /\ all_finished s' = true.
Proof.
  induction n as [|n IH]; intros pre s v Hth Hpre Hv.
  - exists s. cbn. split; [done|]. unfold all_finished.
    rewrite Hth. cbn. by rewrite app_nil_r.
  - cbn [seq flat_map]. rewrite run_schedule_app.
    destruct (solo_calls addr offset (length pre) M s 0%nat v) as (s1 & Hrun & Hh & Hth1);
      [|done|].
    { rewrite Hth. rewrite lookup_app_r by lia. by rewrite Nat.sub_diag. }
    rewrite Hrun. cbn [mbind option_bind].
    destruct (IH (pre ++ [{| todo := 0; fr := Returned; completed := (0 + M)%nat |}]) s1
                (Nat.iter M (fun x => plus x offset) v)) as (s' & Hrun' & Hfin); [| |done|].
    + rewrite Hth1, Hth. cbn [replicate].
      rewrite insert_app_r_alt by lia. rewrite Nat.sub_diag. cbn.
      by rewrite <- app_assoc.
    + rewrite forallb_app, Hpre. reflexivity.
    + rewrite length_app in Hrun'. cbn in Hrun'.
      replace (length pre + 1)%nat with (S (length pre)) in Hrun' by lia.
      exists s'. done.
Qed.

Theorem solo_schedule_finishes addr offset N M m v0 :
  m !! addr = Some v0 ->
  exists s,
    run_schedule plus addr offset (solo_schedule N M) (spawn N M m) = Some s
    /\ all_finished s = true.
Proof.
  intros Hm. apply (solo_threads addr offset M N [] (spawn N M m) v0); done.
Qed.

(** No step writes anywhere but at [addr]. *)
Lemma step_other addr offset m f m' f' a :
  step plus addr offset m f = Some (m', f') -> a <> addr -> m' !! a = m !! a.
Proof.
  intros Hs Ha. destruct f as [|e|e d|e d|e d|]; cbn in Hs; try done.
  - destruct (m !! addr); cbn in Hs; [|done]. by injection Hs as <- _.
  - by injection Hs as <- _.
  - destruct (m !! addr) as [cur|]; cbn in Hs; [|done].
    destruct (decide (cur = e)); injection Hs as <- _; [|done].
    by rewrite lookup_insert_ne.
  - destruct (m !! addr); cbn in Hs; [|done]. by injection Hs as <- _.
  - by injection Hs as <- _.
Qed.

Lemma cstep_other addr offset i (s s' : @cstate V) a :
  cstep plus addr offset i s = Some s' -> a <> addr -> heap s' !! a = heap s !! a.
Proof.
  unfold cstep. intros Hs Ha.
  destruct (threads s !! i) as [t|]; [|done]. cbn in Hs.
  destruct (thread_step plus addr offset (heap s) t) as [[m' t']|] eqn:Hts; [|done].
  cbn in Hs. injection Hs as <-. cbn [heap].
  unfold thread_step in Hts. destruct (fr t) eqn:Hf;
    try (destruct (step plus addr offset (heap s) _) as [[m1 f1]|] eqn:Hst in Hts;
         [|done]; cbn in Hts; injection Hts as <- _; by eapply step_other).
  destruct (todo t); [done|]. by injection Hts as <- _.
Qed.

Lemma run_schedule_other addr offset sched (s s' : @cstate V) a :
  run_schedule plus addr offset sched s = Some s' -> a <> addr ->
  heap s' !! a = heap s !! a.
Proof.
  revert s. induction sched as [|i sched IH]; intros s Hrun Ha; cbn in Hrun.
  - by injection Hrun as <-.
  - destruct (cstep plus addr offset i s) as [s1|] eqn:Hs1; [|done]. cbn in Hrun.
    rewrite (IH _ Hrun Ha). by eapply cstep_other.
Qed.
End AtomicAddFacts.

(** Adding 1.0f over and over from 0.0f counts exactly up to 2^24, where
    the sum stays: 2^24 + 1 rounds back to 2^24. *)
Lemma iter_add_one (n : nat) :
  Nat.iter n (fun v => B32.add v B32.one) B32.zero
  = B32.of_Z (Z.min (Z.of_nat n) 16777216).
Proof.
  induction n as [|n IH]; [reflexivity|].
  rewrite Nat.iter_succ, IH.
  destruct (Z.ltb_spec (Z.of_nat n) 16777216) as [Hlt|Hge].
  - rewrite !Z.min_l by lia. destruct n as [|n]; [reflexivity|].
    rewrite add_one_exact by (change (2 ^ 24) with 16777216; lia).
    f_equal. lia.
  - rewrite !Z.min_r by lia. reflexivity.
Qed.

(** C1. [N] threads each call [atomic_add(addr, 1.0f)] [M] times on a
    cell that holds 0.0f, interleaved in any way, the loads and the
    compare-exchanges being the atomic steps.  Once all calls have
    returned, the cell holds the sum of [N * M] additions of 1.0f to
    0.0f, which is [N * M] itself up to 2^24 and 2^24 beyond; every
    thread has had [M] successful compare-exchanges, [N * M] in all, and
    no other cell has changed. *)
Theorem atomic_add_no_lost_update
    (N M : nat) (addr : Z) (m : gmap Z spec_float) (sched : list nat)
    (s : cstate) :
  m !! addr = Some B32.zero ->
  run_schedule B32.add addr B32.one sched (spawn N M m) = Some s ->
  all_finished s = true ->
  heap s !! addr = Some (Nat.iter (N * M) (fun v => B32.add v B32.one) B32.zero)
  /\ heap s !! addr = Some (B32.of_Z (Z.min (Z.of_nat (N * M)) 16777216))
  /\ Forall (fun t => completed t = M) (threads s)
  /\ total_completed s = (N * M)%nat
  /\ (forall a, a <> addr -> heap s !! a = m !! a).
Proof.
  intros Hm Hrun Hfin.
  destruct (run_schedule_sum B32.add addr B32.one B32.zero N M m sched s Hm Hrun Hfin)
    as [Hheap Hall].
  split; [done|]. split; [by rewrite Hheap, iter_add_one|]. split; [done|]. split.
  - pose proof (run_schedule_length _ _ _ _ _ _ Hrun) as Hlen.
    cbn [spawn threads] in Hlen. rewrite length_replicate in Hlen.
    unfold total_completed. rewrite <- Hlen. clear Hlen Hfin Hrun Hheap.
    induction Hall as [|t ts Ht _ IH]; cbn; [done|]. rewrite Ht, IH. lia.
  - intros a Ha. by rewrite (run_schedule_other _ _ _ _ _ _ _ Hrun Ha).
Qed.

(** Two threads, one call each: the second compare-exchange of thread 1
    fails on the value thread 0 has just written, and its retry succeeds. *)
Lemma atomic_add_no_lost_update_witness :
  exists s,
    run_schedule B32.add 0 B32.one [0; 1; 0; 1; 0; 1; 0; 1; 1; 1; 1]%nat
      (spawn 2 1 {[ 0 := B32.zero ]}) = Some s
    /\ all_finished s = true
    /\ heap s !! 0 = Some (B32.of_Z 2).
Proof.
  destruct (run_schedule B32.add 0 B32.one [0; 1; 0; 1; 0; 1; 0; 1; 1; 1; 1]%nat
              (spawn 2 1 {[ 0 := B32.zero ]})) as [s|] eqn:Hrun;
    [|vm_compute in Hrun; discriminate].
  assert (Hfin : all_finished s = true).
  { vm_compute in Hrun. injection Hrun as <-. reflexivity. }
  exists s. split; [reflexivity|]. split; [exact Hfin|].
  exact (proj1 (proj2 (atomic_add_no_lost_update 2 1 0 {[ 0 := B32.zero ]} _ s
                         eq_refl Hrun Hfin))).
Defined.

(** For every number of threads and of calls some interleaving lets all
    calls return: the threads running one after the other. *)
Lemma atomic_add_threads_can_finish (N M : nat) (addr : Z) (m : gmap Z spec_float) :
  m !! addr = Some B32.zero ->
  exists s,
    run_schedule B32.add addr B32.one (solo_schedule N M) (spawn N M m) = Some s
    /\ all_finished s = true.
Proof. apply solo_schedule_finishes. Qed.

(** C10. Run alone on a mapped cell, [atomic_add(addr, offset)] returns
    as soon as it is given the fuel of its four steps: it has issued one
    compare-exchange, has never entered the loop body, has left the old
    value plus [offset] at [addr], and has changed no other cell. *)
Theorem atomic_add_uncontended
    {V : Type} `{EqDecision V} (plus : V -> V -> V)
    (addr : Z) (offset v : V) (m : gmap Z V) (fuel : nat) :
  m !! addr = Some v -> (4 <= fuel)%nat ->
  exists m',
    atomic_add plus fuel addr offset m
    = Some (m', {| cas_calls := 1; loop_entries := 0 |})
    /\ m' !! addr = Some (plus v offset)
    /\ (forall a, a <> addr -> m' !! a = m !! a).
Proof.
  intros Hv Hfuel. exists (<[addr := plus v offset]> m).
  split; [by apply atomic_add_alone|]. split.
  - apply lookup_insert_eq.
  - intros a Ha. by apply lookup_insert_ne.
Qed.

(** 2.5f + 1.0f at address 8, next to a cell at address 12. *)
Lemma atomic_add_uncontended_witness :
  exists m',
    atomic_add B32.add 4 8 B32.one
      {[ 8 := S754_finite false 10485760 (-22); 12 := B32.of_Z 7 ]}
    = Some (m', {| cas_calls := 1; loop_entries := 0 |})
    /\ m' !! 8 = Some (B32.add (S754_finite false 10485760 (-22)) B32.one)
    /\ (forall a, a <> 8 -> m' !! a
          = ({[ 8 := S754_finite false 10485760 (-22); 12 := B32.of_Z 7 ]}
               : gmap Z spec_float) !! a).
Proof.
  apply (atomic_add_uncontended B32.add 8 B32.one (S754_finite false 10485760 (-22))
           {[ 8 := S754_finite false 10485760 (-22); 12 := B32.of_Z 7 ]} 4).
  - reflexivity.
  - lia.
Defined.

Example atomic_add_example :
  B32.to_bits (B32.add (S754_finite false 10485760 (-22)) B32.one) = 0x40600000.
Proof. reflexivity. Qed.

(** ** FlagToFloatMask: [flag_to_float] *)

Section FlagToFloatFacts.
Context {T : Type}.
Variable test : T -> bool.

Lemma flag_to_float_loop_spec (src : list T) k : forall (dst : list Z) i,
  (i + k <= length src)%nat -> (i + k <= length dst)%nat ->
  flag_to_float_loop test src dst i k
  = Some (take i dst ++ ((fun x => mask_of (test x)) <$> take k (drop i src))
            ++ drop (i + k) dst).
Proof.
  induction k as [|k IH]; intros dst i Hs Hd; cbn [flag_to_float_loop].
  - rewrite take_0, Nat.add_0_r. cbn. by rewrite take_drop.
  - destruct (lookup_lt_is_Some_2 src i ltac:(lia)) as [x Hx].
    destruct (lookup_lt_is_Some_2 dst i ltac:(lia)) as [w Hw].
    rewrite Hx, Hw. cbn [mbind option_bind].
    rewrite IH by (rewrite ?length_insert; lia).
    f_equal.
    rewrite (take_S_r (<[i:=mask_of (test x)]> dst) i (mask_of (test x)))
      by (apply list_lookup_insert_eq; lia).
    rewrite take_insert_ge by lia.
    rewrite drop_insert_lt by lia.
    rewrite (drop_S src x i Hx). cbn [take fmap list_fmap].
    rewrite <- app_assoc. cbn.
    by replace (i + S k)%nat with (S (i + k)) by lia.
Qed.

Lemma flag_to_float_scalar_loop_spec (src : T) k : forall (dst : list Z) i,
  (i + k <= length dst)%nat ->
  flag_to_float_scalar_loop test src dst i k
  = Some (take i dst ++ replicate k (mask_of (test src)) ++ drop (i + k) dst).
Proof.
  induction k as [|k IH]; intros dst i Hd; cbn [flag_to_float_scalar_loop].
  - rewrite Nat.add_0_r. cbn. by rewrite take_drop.
  - destruct (lookup_lt_is_Some_2 dst i ltac:(lia)) as [w Hw].
    rewrite Hw. cbn [mbind option_bind].
    rewrite IH by (rewrite ?length_insert; lia).
    f_equal.
    rewrite (take_S_r (<[i:=mask_of (test src)]> dst) i (mask_of (test src)))
      by (apply list_lookup_insert_eq; lia).
    rewrite take_insert_ge by lia.
    rewrite drop_insert_lt by lia.
    rewrite <- app_assoc. cbn.
    by replace (i + S k)%nat with (S (i + k)) by lia.
Qed.

(** The batch form on arrays that hold at least [n] elements. *)
Lemma flag_to_float_spec (src : list T) (dst : list Z) (n : Z) :
  n <= Z.of_nat (length src) -> n <= Z.of_nat (length dst) ->
  flag_to_float test src dst n
  = Some (((fun x => mask_of (test x)) <$> take (Z.to_nat n) src)
            ++ drop (Z.to_nat n) dst).
Proof.
  intros Hs Hd. unfold flag_to_float.
  rewrite flag_to_float_loop_spec by lia. by rewrite take_0, drop_0.
Qed.

Lemma flag_to_float_scalar_spec (src : T) (dst : list Z) (n : Z) :
  n <= Z.of_nat (length dst) ->
  flag_to_float_scalar test src dst n
  = Some (replicate (Z.to_nat n) (mask_of (test src)) ++ drop (Z.to_nat n) dst).
Proof.
  intros Hd. unfold flag_to_float_scalar.
  rewrite flag_to_float_scalar_loop_spec by lia. by rewrite take_0.
Qed.

(** A read past the end of the source, or a write past the end of the
    destination, is undefined. *)
Lemma flag_to_float_out_of_bounds (src : list T) (dst : list Z) (n : Z) :
  Z.of_nat (length src) < n \/ Z.of_nat (length dst) < n ->
  flag_to_float test src dst n = None.
Proof.
  unfold flag_to_float. intros Hn.
  assert (Hk : (0 <= length src /\ 0 <= length dst
                /\ (length src < 0 + Z.to_nat n \/ length dst < 0 + Z.to_nat n))%nat) by lia.
  clear Hn. revert Hk. generalize (Z.to_nat n) as k, 0%nat as i. intros k. revert dst.
  induction k as [|k IH]; intros dst i Hk; [lia|]. cbn [flag_to_float_loop].
  destruct (src !! i) as [x|] eqn:Hx; [|done]. cbn [mbind option_bind].
  destruct (dst !! i) as [w|] eqn:Hw; [|done]. cbn [mbind option_bind].
  apply IH. rewrite length_insert.
  apply lookup_lt_Some in Hx, Hw. lia.
Qed.

End FlagToFloatFacts.

Lemma mask_of_is_mask b : is_mask (mask_of b) = true.
Proof. by destruct b. Qed.

(** Every word the two overloads of [flag_to_float] write is a mask. *)
Lemma flag_to_float_writes_masks {T} (test : T -> bool) src dst n dst' i :
  flag_to_float test src dst n = Some dst' -> (i < Z.to_nat n)%nat ->
  exists w, dst' !! i = Some w /\ is_mask w = true.
Proof.
  intros Hrun Hi.
  destruct (Z.le_gt_cases n (Z.of_nat (length src))) as [Hs|Hs];
    [|by rewrite flag_to_float_out_of_bounds in Hrun by lia].
  destruct (Z.le_gt_cases n (Z.of_nat (length dst))) as [Hd|Hd];
    [|by rewrite flag_to_float_out_of_bounds in Hrun by lia].
  rewrite flag_to_float_spec in Hrun by done. injection Hrun as <-.
  destruct (lookup_lt_is_Some_2 src i ltac:(lia)) as [x Hx].
  exists (mask_of (test x)). split; [|apply mask_of_is_mask].
  rewrite lookup_app_l by (rewrite length_fmap, length_take; lia).
  by rewrite list_lookup_fmap, lookup_take_lt, Hx by lia.
Qed.

Lemma flag_to_float_scalar_writes_masks {T} (test : T -> bool) src dst n i :
  n <= Z.of_nat (length dst) -> (i < Z.to_nat n)%nat ->
  exists dst' w, flag_to_float_scalar test src dst n = Some dst'
                 /\ dst' !! i = Some w /\ is_mask w = true.
Proof.
  intros Hd Hi. rewrite flag_to_float_scalar_spec by done.
  eexists _, (mask_of (test src)). split; [done|]. split; [|apply mask_of_is_mask].
  rewrite lookup_app_l by (rewrite length_replicate; lia).
  by apply lookup_replicate_2.
Qed.

(** C4. On a source and a destination of at least [n] elements the
    batch [flag_to_float] returns; the destination keeps its length; its
    word [i], for [i < n], is 0xFFFFFFFF when the flag [i] is non-zero
    and 0 when it is zero, whatever the other flags are; the words from
    [n] on are untouched; and the flags [1,0,1,1,0] give
    [0xFFFFFFFF,0,0xFFFFFFFF,0xFFFFFFFF,0]. *)
Theorem flag_to_float_batch (src dst : list Z) (n : Z) :
  n <= Z.of_nat (length src) -> n <= Z.of_nat (length dst) ->
  exists dst',
    flag_to_float truthy src dst n = Some dst'
    /\ length dst' = length dst
    /\ (forall i x, (i < Z.to_nat n)%nat -> src !! i = Some x ->
          dst' !! i = Some (if decide (x = 0) then 0 else 0xFFFFFFFF))
    /\ (forall i, (Z.to_nat n <= i)%nat -> dst' !! i = dst !! i)
    /\ (forall d0 d1 d2 d3 d4,
          flag_to_float truthy [1; 0; 1; 1; 0] [d0; d1; d2; d3; d4] 5
          = Some [0xFFFFFFFF; 0; 0xFFFFFFFF; 0xFFFFFFFF; 0]).
Proof.
  intros Hs Hd. eexists. split; [by apply flag_to_float_spec|].
  assert (Hlen : length ((fun x => mask_of (truthy x)) <$> take (Z.to_nat n) src)
                 = Z.to_nat n) by (rewrite length_fmap, length_take; lia).
  split; [|split; [|split]].
  - rewrite length_app, Hlen, length_drop. lia.
  - intros i x Hi Hx. rewrite lookup_app_l by lia.
    rewrite list_lookup_fmap, lookup_take_lt, Hx by lia. cbn. f_equal.
    unfold truthy, mask_of. destruct (Z.eqb_spec x 0), (decide (x = 0)); done.
  - intros i Hi. rewrite lookup_app_r by lia. rewrite Hlen, lookup_drop.
    f_equal. lia.
  - reflexivity.
Qed.

Lemma flag_to_float_batch_witness :
  exists dst',
    flag_to_float truthy [1; 0; 255] [7; 7; 7; 7] 3 = Some dst'
    /\ length dst' = 4%nat
    /\ dst' !! 2%nat = Some 0xFFFFFFFF
    /\ dst' !! 3%nat = Some 7.
Proof.
  destruct (flag_to_float_batch [1; 0; 255] [7; 7; 7; 7] 3) as (dst' & H1 & H2 & H3 & H4 & _).
  - cbn. lia.
  - cbn. lia.
  - exists dst'. split; [exact H1|]. split; [exact H2|]. split.
    + exact (H3 2%nat 255 ltac:(cbn; lia) eq_refl).
    + exact (H4 3%nat ltac:(cbn; lia)).
Defined.

(** ** FlagToFloatMask: [to_float_mask] *)

Lemma mapM_lookup_seq {A B} (g : A -> B) (src : list A) : forall pre,
  mapM (fun i => x ← (pre ++ src) !! i; Some (g x)) (seq (length pre) (length src))
  = Some (g <$> src).
Proof.
  induction src as [|x src IH]; intros pre; [done|].
  cbn [length seq mapM]. rewrite lookup_app_r, Nat.sub_diag by lia.
  cbn [lookup list_lookup mbind option_bind].
  specialize (IH (pre ++ [x])). rewrite <- app_assoc, length_app in IH. cbn in IH.
  replace (length pre + 1)%nat with (S (length pre)) in IH by lia.
  by rewrite IH.
Qed.

(** The generic template on a vector that has as many lanes as a vector
    of [float]: every lane is the conversion to [float] of 4294967295 or
    of 0. *)
Lemma to_float_mask_spec {SRC} cap sizeof_src (test : SRC -> bool) (src : list SRC) :
  vectorized_size cap 4 = vectorized_size cap sizeof_src ->
  length src = vectorized_size cap 4 ->
  to_float_mask cap sizeof_src test src
  = Some ((fun x => B32.of_Z (if test x then 0xFFFFFFFF else 0)) <$> src).
Proof.
  intros Hsz Hlen. unfold to_float_mask. rewrite decide_True by done.
  rewrite <- Hlen. apply (mapM_lookup_seq _ src []).
Qed.

(** A lane whose source is true holds 2^32 as a [float], pattern
    0x4F800000; a lane whose source is false holds 0. *)
Lemma to_float_mask_lane_bits {SRC} (test : SRC -> bool) (src_tmp : list SRC) i x :
  src_tmp !! i = Some x ->
  B32.to_bits <$> to_float_mask_lane test src_tmp i
  = Some (if test x then 0x4F800000 else 0).
Proof. intros Hx. unfold to_float_mask_lane. rewrite Hx. cbn. by destruct (test x). Qed.

Lemma binary_round_aux_sign prec emax s m e l :
  match binary_round_aux prec emax s m e l with
  | S754_zero s' | S754_infinity s' | S754_finite s' _ _ => s' = s
  | S754_nan => True
  end.
Proof.
  unfold binary_round_aux.
  destruct (shr_fexp prec emax m e l) as [mrs' e'].
  destruct (shr_fexp prec emax _ e' loc_Exact) as [mrs'' e''].
  destruct (shr_m mrs''); [done| |done].
  by destruct (_ <=? _).
Qed.

Lemma of_Z_neg_sign p : sign_bit (B32.of_Z (Z.neg p)) <> Some false.
Proof.
  unfold B32.of_Z, binary_normalize, binary_round.
  destruct (shl_align p 0 _) as [mz ez].
  pose proof (binary_round_aux_sign B32.prec B32.emax true (Z.pos mz) ez loc_Exact) as Hs.
  destruct (binary_round_aux _ _ _ _ _ _); cbn; congruence.
Qed.

(** No [int] but 0 is converted to the [float] that the generic template
    writes: the conversion of an [int] stays below 2^32. *)
Lemma of_Z_int32_ne_generic z :
  - 2 ^ 31 <= z < 2 ^ 31 ->
  B32.of_Z z = B32.of_Z (if truthy z then 0xFFFFFFFF else 0) <-> z = 0.
Proof.
  intros Hz. split; [|by intros ->].
  unfold truthy. destruct (Z.eqb_spec z 0) as [|Hne]; [done|]. cbn [negb].
  change (B32.of_Z 0xFFFFFFFF) with (S754_finite false 8388608 9).
  intros Heq. exfalso. destruct z as [|p|p]; [done| |].
  - assert (H127 : 2 ^ 31 < 2 ^ 127) by reflexivity.
    rewrite of_Z_pos in Heq by lia.
    assert (Hd : Zdigits2 (Z.pos p * 2 ^ 24) <= 55).
    { rewrite Zdigits2_scale by lia.
      pose proof (Zdigits2_bounds (Z.pos p) ltac:(lia)) as [Hl _].
      assert (Zdigits2 (Z.pos p) - 1 < 31); [|lia].
      apply (Z.pow_lt_mono_r_iff 2); lia. }
    assert (Hd' : 24 <= Zdigits2 (Z.pos p * 2 ^ 24)).
    { rewrite Zdigits2_scale by lia. pose proof (Zdigits2_pos (Z.pos p)). lia. }
    pose proof (round24_me_bounds (Z.pos p * 2 ^ 24) (-24) ltac:(lia) Hd') as [_ He].
    unfold finite_of in Heq. injection Heq as _ He9. lia.
  - apply (of_Z_neg_sign p). by rewrite Heq.
Qed.

(** On [int] lanes the specialization and the generic template agree
    exactly on the vectors whose lanes are all zero. *)
Lemma to_float_mask_int_agrees_iff_zero cap (src : list Z) :
  length src = vectorized_size cap 4 ->
  Forall (fun z => - 2 ^ 31 <= z < 2 ^ 31) src ->
  to_float_mask_generic_int cap src = Some (to_float_mask_int src)
  <-> Forall (fun z => z = 0) src.
Proof.
  intros Hlen Hrange. unfold to_float_mask_generic_int, to_float_mask_int.
  rewrite to_float_mask_spec by done. clear Hlen.
  split.
  - intros Heq. injection Heq as Heq.
    induction Hrange as [|z src Hz _ IH]; [done|].
    cbn in Heq. injection Heq as Hhd Htl. constructor; [|by apply IH].
    apply of_Z_int32_ne_generic; done.
  - intros Hzero. f_equal. induction Hzero as [|z src -> _ IH]; [done|].
    cbn. f_equal. inversion Hrange; subst. by apply IH.
Qed.

(** A vector of [uint8_t] has four times the lanes of a vector of
    [float]: the assertion of the generic template fails on it. *)
Example to_float_mask_uint8_asserts :
  to_float_mask AVX2 1 truthy (replicate 32 1) = None.
Proof. reflexivity. Qed.

(** C2, at the vectorized conversions.  On a vector of eight [float]
    conditions the generic [to_float_mask] leaves 2^32 as a [float]
    (0x4F800000) in the lanes whose condition is true, and the [int]
    specialization leaves the numeric conversion of each lane (-1.0f,
    1.0f, 5.0f): none of these patterns is all ones or all zeros. *)
Theorem to_float_mask_lanes_not_masks :
  lane_bits <$> to_float_mask AVX2 4 truthy_float
                  [B32.one; B32.zero; B32.one; B32.one;
                   B32.zero; B32.zero; B32.zero; B32.one]
  = Some [0x4F800000; 0; 0x4F800000; 0x4F800000; 0; 0; 0; 0x4F800000]
  /\ lane_bits (to_float_mask_int [-1; 0; 1; 5; 0; 0; 0; -1])
     = [0xBF800000; 0; 0x3F800000; 0x40A00000; 0; 0; 0; 0xBF800000]
  /\ is_mask 0x4F800000 = false
  /\ is_mask 0xBF800000 = false
  /\ is_mask 0x3F800000 = false
  /\ is_mask 0x40A00000 = false.
Proof. repeat split; reflexivity. Qed.

(** C3, at a vector of comparison results.  The [int] specialization
    gives -1.0f and 1.0f where the generic template gives 2^32: the two
    paths differ on every lane that is not zero. *)
Theorem to_float_mask_int_differs_from_generic :
  lane_bits (to_float_mask_int [-1; 0; 0; -1; 1; 0; 0; 0])
  = [0xBF800000; 0; 0; 0xBF800000; 0x3F800000; 0; 0; 0]
  /\ lane_bits <$> to_float_mask_generic_int AVX2 [-1; 0; 0; -1; 1; 0; 0; 0]
     = Some [0x4F800000; 0; 0; 0x4F800000; 0x4F800000; 0; 0; 0]
  /\ to_float_mask_generic_int AVX2 [-1; 0; 0; -1; 1; 0; 0; 0]
     <> Some (to_float_mask_int [-1; 0; 0; -1; 1; 0; 0; 0]).
Proof. repeat split; try reflexivity. vm_compute. discriminate. Qed.

(** * Part III: further properties of the primitives *)

(** ** [flag_to_float]: bounds, composition, decoding *)

Section FlagToFloatMore.
Context {T : Type}.
Variable test : T -> bool.

Lemma flag_to_float_scalar_out_of_bounds (src : T) (dst : list Z) (n : Z) :
  Z.of_nat (length dst) < n -> flag_to_float_scalar test src dst n = None.
Proof.
  unfold flag_to_float_scalar. intros Hn.
  assert (Hk : (0 <= length dst /\ length dst < 0 + Z.to_nat n)%nat) by lia.
  clear Hn. revert Hk. generalize (Z.to_nat n) as k, 0%nat as i. intros k. revert dst.
  induction k as [|k IH]; intros dst i Hk; [lia|]. cbn [flag_to_float_scalar_loop].
  destruct (dst !! i) as [w|] eqn:Hw; [|done]. cbn [mbind option_bind].
  apply IH. rewrite length_insert. apply lookup_lt_Some in Hw. lia.
Qed.

Lemma flag_to_float_Some_bounds (src : list T) (dst dst' : list Z) (n : Z) :
  flag_to_float test src dst n = Some dst' ->
  n <= Z.of_nat (length src) /\ n <= Z.of_nat (length dst).
Proof.
  intros Hr.
  destruct (Z.le_gt_cases n (Z.of_nat (length src))) as [Hs|Hs];
    [|by rewrite flag_to_float_out_of_bounds in Hr by lia].
  destruct (Z.le_gt_cases n (Z.of_nat (length dst))) as [Hd|Hd];
    [done|by rewrite flag_to_float_out_of_bounds in Hr by lia].
Qed.

(** X1. Both overloads are defined exactly when the arrays they index hold
    [n] elements: the batch form reads [src[0..n)] and writes
    [dst[0..n)], the scalar form only writes. *)
Theorem flag_to_float_defined_iff (src : list T) (v : T) (dst : list Z) (n : Z) :
  (is_Some (flag_to_float test src dst n)
   <-> n <= Z.of_nat (length src) /\ n <= Z.of_nat (length dst))
  /\ (is_Some (flag_to_float_scalar test v dst n) <-> n <= Z.of_nat (length dst)).
Proof.
  split; split.
  - intros [r Hr]. by eapply flag_to_float_Some_bounds.
  - intros [Hs Hd]. by rewrite flag_to_float_spec.
  - intros [r Hr].
    destruct (Z.le_gt_cases n (Z.of_nat (length dst))) as [Hd|Hd];
      [done|by rewrite flag_to_float_scalar_out_of_bounds in Hr by lia].
  - intros Hd. by rewrite flag_to_float_scalar_spec.
Qed.

(** X2. On a constant source the batch form is the scalar form. *)
Theorem flag_to_float_replicate (v : T) (dst : list Z) (n : Z) :
  flag_to_float test (replicate (Z.to_nat n) v) dst n
  = flag_to_float_scalar test v dst n.
Proof.
  destruct (Z.le_gt_cases n (Z.of_nat (length dst))) as [Hd|Hd].
  - rewrite flag_to_float_spec, flag_to_float_scalar_spec;
      rewrite ?length_replicate; try lia.
    rewrite take_replicate, Nat.min_id. by rewrite fmap_replicate.
  - rewrite flag_to_float_out_of_bounds, flag_to_float_scalar_out_of_bounds; auto; lia.
Qed.

End FlagToFloatMore.

(** X3. The scalar overload writes the one mask of [src] into the first [n]
    words of a destination that holds them, and nothing else. *)
Theorem flag_to_float_scalar_fills (src : Z) (dst : list Z) (n : Z) :
  n <= Z.of_nat (length dst) ->
  exists dst',
    flag_to_float_scalar truthy src dst n = Some dst'
    /\ length dst' = length dst
    /\ (forall i, (i < Z.to_nat n)%nat ->
          dst' !! i = Some (if decide (src = 0) then 0 else 0xFFFFFFFF))
    /\ (forall i, (Z.to_nat n <= i)%nat -> dst' !! i = dst !! i).
Proof.
  intros Hd. eexists. split; [by apply flag_to_float_scalar_spec|].
  split; [|split].
  - rewrite length_app, length_replicate, length_drop. lia.
  - intros i Hi. rewrite lookup_app_l by (rewrite length_replicate; lia).
    rewrite lookup_replicate_2 by done. f_equal.
    unfold truthy, mask_of. destruct (Z.eqb_spec src 0), (decide (src = 0)); done.
  - intros i Hi. rewrite lookup_app_r by (rewrite length_replicate; lia).
    rewrite length_replicate, lookup_drop. f_equal. lia.
Qed.

Lemma flag_to_float_scalar_fills_witness :
  exists dst',
    flag_to_float_scalar truthy 3 [7; 7; 7] 2 = Some dst'
    /\ length dst' = 3%nat
    /\ (forall i, (i < Z.to_nat 2)%nat -> dst' !! i = Some 0xFFFFFFFF)
    /\ (forall i, (Z.to_nat 2 <= i)%nat -> dst' !! i = [7; 7; 7] !! i).
Proof. apply (flag_to_float_scalar_fills 3 [7; 7; 7] 2). cbn. lia. Defined.

Lemma masks_length {T} (test : T -> bool) (src : list T) (n : Z) :
  n <= Z.of_nat (length src) ->
  length ((fun x => mask_of (test x)) <$> take (Z.to_nat n) src) = Z.to_nat n.
Proof. intros Hs. rewrite length_fmap, length_take. lia. Qed.

(** X4. Running the batch form again on its own result changes nothing. *)
Theorem flag_to_float_idempotent {T} (test : T -> bool) (src : list T) dst n dst' :
  flag_to_float test src dst n = Some dst' ->
  flag_to_float test src dst' n = Some dst'.
Proof.
  intros Hrun. destruct (flag_to_float_Some_bounds test _ _ _ _ Hrun) as [Hs Hd].
  rewrite flag_to_float_spec in Hrun by done. injection Hrun as <-.
  pose proof (masks_length test src n Hs) as Hlen.
  rewrite flag_to_float_spec; [|done|rewrite length_app, Hlen, length_drop; lia].
  f_equal. f_equal. rewrite drop_app_length'; done.
Qed.

Lemma flag_to_float_idempotent_witness :
  flag_to_float truthy [1; 0] [0xFFFFFFFF; 0; 5] 2 = Some [0xFFFFFFFF; 0; 5].
Proof. apply (flag_to_float_idempotent truthy [1; 0] [9; 9; 5] 2). reflexivity. Defined.

(** X5. The masks decode to the truth values of the flags: a word of the
    result is non-zero exactly where the flag is true. *)
Theorem flag_to_float_decodes {T} (test : T -> bool) (src : list T) dst n dst' :
  flag_to_float test src dst n = Some dst' ->
  truthy <$> take (Z.to_nat n) dst' = test <$> take (Z.to_nat n) src.
Proof.
  intros Hrun. destruct (flag_to_float_Some_bounds test _ _ _ _ Hrun) as [Hs Hd].
  rewrite flag_to_float_spec in Hrun by done. injection Hrun as <-.
  rewrite take_app_length' by (symmetry; by apply masks_length).
  rewrite <- list_fmap_compose. apply list_fmap_ext. intros i x _. cbn.
  by destruct (test x).
Qed.

Lemma flag_to_float_decodes_witness :
  truthy <$> take (Z.to_nat 3) [0xFFFFFFFF; 0; 0xFFFFFFFF; 4]
  = truthy <$> take (Z.to_nat 3) [1; 0; 255].
Proof. apply (flag_to_float_decodes truthy [1; 0; 255] [4; 4; 4; 4] 3). reflexivity. Defined.

(** X6. Whatever the flags and the old content of the destination, the
    words the two overloads write are all ones or all zeros. *)
Theorem flag_to_float_only_writes_masks {T} (test : T -> bool)
    (src : list T) (v : T) (dst : list Z) (n : Z) (dst' : list Z) :
  flag_to_float test src dst n = Some dst'
  \/ flag_to_float_scalar test v dst n = Some dst' ->
  Forall (fun w => is_mask w = true) (take (Z.to_nat n) dst').
Proof.
  intros [Hrun|Hrun].
  - destruct (flag_to_float_Some_bounds test _ _ _ _ Hrun) as [Hs Hd].
    rewrite flag_to_float_spec in Hrun by done. injection Hrun as <-.
    rewrite take_app_length' by (symmetry; by apply masks_length).
    apply Forall_fmap, Forall_true. intros x. apply mask_of_is_mask.
  - destruct (Z.le_gt_cases n (Z.of_nat (length dst))) as [Hd|Hd];
      [|by rewrite flag_to_float_scalar_out_of_bounds in Hrun by lia].
    rewrite flag_to_float_scalar_spec in Hrun by done. injection Hrun as <-.
    rewrite take_app_length' by (by rewrite length_replicate).
    apply Forall_replicate, mask_of_is_mask.
Qed.

Lemma flag_to_float_only_writes_masks_witness :
  Forall (fun w => is_mask w = true) (take (Z.to_nat 2) [0; 0xFFFFFFFF; 12]).
Proof.
  apply (flag_to_float_only_writes_masks truthy [0; 7] 0 [12; 12; 12] 2).
  left. reflexivity.
Defined.

(** ** [mod]: where it is defined, and what the remainder satisfies *)

(** X7. On operands of [T], [mod] is undefined exactly for a zero divisor
    and for the smallest [int] or [long] divided by -1. *)
Theorem mod_int_undefined_iff ty a b :
  in_range ty a ->
  mod_int ty a b = None <-> b = 0 \/ quotient_overflows ty a b.
Proof.
  intros Ha. split; [|apply mod_int_undefined].
  intros Hnone.
  destruct (Z.eq_dec b 0) as [|Hb]; [by left|]. right.
  assert (Hdec : (ty = int32_t \/ ty = int64_t) \/ ~ (ty = int32_t \/ ty = int64_t)).
  { destruct ty; first [left; auto; fail | right; intros [?|?]; discriminate]. }
  destruct Hdec as [Hty|Hty].
  - destruct (Z.eq_dec a (int_min ty)) as [Hmin|Hmin];
      [destruct (Z.eq_dec b (-1)) as [H1|H1]; [done|]|];
      exfalso; unfold mod_int in Hnone;
      rewrite builtin_rem_defined in Hnone; try done;
      unfold quotient_overflows; tauto.
  - exfalso. unfold mod_int in Hnone.
    rewrite builtin_rem_defined in Hnone; try done.
    unfold quotient_overflows; tauto.
Qed.

Lemma mod_int_undefined_iff_witness :
  mod_int int64_t (- 2 ^ 63) (-1) = None
  <-> -1 = 0 \/ quotient_overflows int64_t (- 2 ^ 63) (-1).
Proof.
  apply (mod_int_undefined_iff int64_t (- 2 ^ 63) (-1)).
  unfold in_range, int_min, int_max; cbn; lia.
Defined.

Lemma mod_int_Some_rem ty a b r :
  in_range ty a -> in_range ty b -> mod_int ty a b = Some r ->
  b <> 0 /\ r = Z.rem a b.
Proof.
  intros Ha Hb Hr.
  assert (Hdef : ~ (b = 0 \/ quotient_overflows ty a b)).
  { intros Hu. apply mod_int_undefined in Hu. congruence. }
  assert (Hb0 : b <> 0) by tauto. split; [done|].
  rewrite mod_int_rem in Hr by tauto. congruence.
Qed.

(** X8. Whenever [mod] returns, its result [r] fits [T], completes the
    truncated quotient ([a = b * (a / b) + r] with [/] rounding toward
    zero), is smaller than the divisor in magnitude, and is never of the
    sign opposite to the dividend. *)
Theorem mod_int_division ty a b r :
  in_range ty a -> in_range ty b -> mod_int ty a b = Some r ->
  in_range ty r
  /\ a = b * (a ÷ b) + r
  /\ Z.abs r < Z.abs b
  /\ 0 <= r * a.
Proof.
  intros Ha Hb Hr. destruct (mod_int_Some_rem ty a b r Ha Hb Hr) as [Hb0 ->].
  split; [by apply rem_in_range|]. split; [apply Z.quot_rem'|].
  split; [by apply Z.rem_bound_abs|].
  apply Z.rem_sign_mul. done.
Qed.

Lemma mod_int_division_witness :
  in_range int8_t (-3)
  /\ -7 = 4 * (-7 ÷ 4) + -3
  /\ Z.abs (-3) < Z.abs 4
  /\ 0 <= -3 * -7.
Proof.
  apply (mod_int_division int8_t (-7) 4 (-3)).
  - unfold in_range, int_min, int_max; cbn; lia.
  - unfold in_range, int_min, int_max; cbn; lia.
  - reflexivity.
Defined.

(** X9. On the unsigned types and on [bool] a non-zero divisor is all [mod]
    needs, and the result is the Euclidean [a mod b]. *)
Theorem mod_int_unsigned ty a b :
  is_signed ty = false -> in_range ty a -> in_range ty b -> b <> 0 ->
  mod_int ty a b = Some (a mod b).
Proof.
  intros Hu Ha Hb Hb0.
  assert (0 <= a /\ 0 < b) as [Ha0 Hb1].
  { destruct ty; try discriminate; unfold in_range, int_min, int_max in *;
      cbn in *; lia. }
  rewrite mod_int_rem; try done.
  - by rewrite Z.rem_mod_nonneg by lia.
  - unfold quotient_overflows. intros ([-> | ->] & _); discriminate.
Qed.

Lemma mod_int_unsigned_witness : mod_int uint8_t 200 7 = Some (200 mod 7).
Proof.
  apply (mod_int_unsigned uint8_t 200 7); [reflexivity| | |lia];
    unfold in_range, int_min, int_max; cbn; lia.
Defined.

Section FmodMore.
Variables prec emax : Z.

Lemma binary_round_exact_valid s r e :
  Z.pos (digits2_pos r) <= prec -> emin prec emax <= e <= emax - prec ->
  valid_binary prec emax (binary_round prec emax s r e) = true.
Proof.
  intros Hd He.
  destruct (binary_round_exact prec emax s r e Hd He) as [He' ->].
  set (e' := fexp prec emax (Z.pos (digits2_pos r) + e)) in *.
  cbn [valid_binary]. unfold bounded, canonical_mantissa.
  rewrite digits2_pos_shift by lia.
  replace (Z.pos (digits2_pos r) + (e - e') + e') with (Z.pos (digits2_pos r) + e) by lia.
  fold e'. rewrite Z.eqb_refl. cbn. apply Z.leb_le. lia.
Qed.

Lemma fmod_valid x y :
  valid_binary prec emax x = true -> valid_binary prec emax y = true ->
  valid_binary prec emax (fmod prec emax x y) = true.
Proof.
  intros Hx Hy.
  destruct x as [sx|sx| |sx mx ex], y as [sy|sy| |sy my ey]; try done.
  cbn [valid_binary] in Hx, Hy.
  apply bounded_inv in Hx as [Hdx Hex], Hy as [Hdy Hey].
  unfold fmod. cbv zeta. set (ez := Z.min ex ey).
  rewrite !shl_align_value by lia.
  set (ax := Z.pos mx * 2 ^ (ex - ez)). set (ay := Z.pos my * 2 ^ (ey - ez)).
  pose proof (pow2_pos (ex - ez) ltac:(lia)). pose proof (pow2_pos (ey - ez) ltac:(lia)).
  assert (Hax : 0 < ax) by (unfold ax; lia). assert (Hay : 0 < ay) by (unfold ay; lia).
  pose proof (Z.rem_bound_pos ax ay ltac:(lia) Hay) as Hr.
  destruct (Z.rem ax ay) as [|r|r] eqn:Er; try done.
  apply binary_round_exact_valid; [|lia].
  destruct (Z.le_ge_cases ex ey).
  - assert (ax = Z.pos mx) by (unfold ax; replace (ex - ez) with 0 by lia; lia).
    pose proof (Z.rem_le ax ay ltac:(lia) Hay). rewrite Er in *.
    etrans; [apply (digits2_pos_mono r mx); lia|done].
  - assert (ay = Z.pos my) by (unfold ay; replace (ey - ez) with 0 by lia; lia).
    etrans; [apply (digits2_pos_mono r my); lia|done].
Qed.

Lemma fmod_magnitude x y :
  valid_binary prec emax x = true -> valid_binary prec emax y = true ->
  is_finite x = true -> is_nonzero_finite y = true ->
  Z.abs (units prec emax (fmod prec emax x y)) < Z.abs (units prec emax y)
  /\ (Z.abs (units prec emax x) < Z.abs (units prec emax y) ->
      units prec emax (fmod prec emax x y) = units prec emax x).
Proof.
  intros Hx Hy Fx Fy.
  destruct (fmod_spec prec emax x y Hx Hy Fx Fy) as (-> & _ & _).
  assert (Hy0 : units prec emax y <> 0).
  { destruct y as [| | |sy my ey]; try discriminate.
    cbn [valid_binary] in Hy. apply bounded_inv in Hy as [_ Hey].
    unfold units. pose proof (pow2_pos (ey - emin prec emax) ltac:(lia)).
    destruct sy; cbn [cond_Zopp]; lia. }
  split; [by apply Z.rem_bound_abs|].
  intros Hlt.
  destruct (Z.le_gt_cases 0 (units prec emax x)) as [Hpos|Hneg].
  - rewrite <- (Z.rem_abs_r _ _ Hy0). apply Z.rem_small. lia.
  - rewrite <- (Z.rem_abs_r _ _ Hy0).
    rewrite <- (Z.opp_involutive (units prec emax x)) at 1.
    rewrite Z.rem_opp_l by lia. rewrite Z.rem_small by lia. lia.
Qed.
End FmodMore.

(** X10. [mod] on [float] and on [double] turns canonical operands into a
    canonical result; for a finite dividend and a finite non-zero
    divisor the result is smaller than the divisor in magnitude, and it
    is the dividend itself when that is already smaller. *)
Theorem mod_float_bounded (a b : spec_float) :
  (valid_binary 24 128 a = true -> valid_binary 24 128 b = true ->
   valid_binary 24 128 (mod_float a b) = true
   /\ (is_finite a = true -> is_nonzero_finite b = true ->
       Z.abs (units 24 128 (mod_float a b)) < Z.abs (units 24 128 b)
       /\ (Z.abs (units 24 128 a) < Z.abs (units 24 128 b) ->
           units 24 128 (mod_float a b) = units 24 128 a)))
  /\ (valid_binary 53 1024 a = true -> valid_binary 53 1024 b = true ->
      valid_binary 53 1024 (mod_double a b) = true
      /\ (is_finite a = true -> is_nonzero_finite b = true ->
          Z.abs (units 53 1024 (mod_double a b)) < Z.abs (units 53 1024 b)
          /\ (Z.abs (units 53 1024 a) < Z.abs (units 53 1024 b) ->
              units 53 1024 (mod_double a b) = units 53 1024 a))).
Proof.
  split; intros Ha Hb; (split; [by apply fmod_valid|]);
    intros Fa Fb; by apply fmod_magnitude.
Qed.

(** ** [uint32_to_uniform_float]: the values it takes *)

Lemma finite_of_ltb a b :
  0 < fst a -> 0 < fst b -> me_lt a b -> B32.ltb (finite_of a) (finite_of b) = true.
Proof.
  intros Ha Hb Hlt. unfold B32.ltb, SFltb, SFcompare, finite_of.
  destruct a as [ma ea], b as [mb eb]. unfold me_lt in Hlt. cbn [fst snd] in *.
  destruct Hlt as [Hlt|[-> Hm]].
  - apply Z.compare_lt_iff in Hlt. by rewrite Hlt.
  - rewrite Z.compare_refl, Pos.compare_cont_spec. cbn [Pos.switch_Eq].
    destruct (Pos.compare_spec (Z.to_pos ma) (Z.to_pos mb)); try reflexivity; lia.
Qed.

(** Rounding [m * (2^24 - 1)] to 24 bits: one less than [m], or all ones
    one binade down when [m] is a power of two. *)
Lemma round24_me_times_scale m E :
  8388608 <= m < 16777216 ->
  round24_me (m * 16777215) (E - 55) = times_scale (m, E).
Proof.
  intros Hm. unfold round24_me, times_scale. cbn [fst snd].
  destruct (Z.eqb_spec m 8388608) as [->|Hne].
  - vm_compute Zdigits2. vm_compute rne. cbn. f_equal. lia.
  - assert (Hd : Zdigits2 (m * 16777215) = 48).
    { apply Zdigits2_unique; [|lia].
      change (2 ^ (48 - 1)) with 140737488355328.
      change (2 ^ 48) with 281474976710656. lia. }
    rewrite Hd. change (48 - 24) with 24.
    assert (Hr : rne (m * 16777215) 24 = m - 1).
    { unfold rne. change (2 ^ 24) with 16777216.
      assert (Hq : m * 16777215 / 16777216 = m - 1).
      { symmetry. apply (Z.div_unique _ _ _ (16777216 - m)); lia. }
      assert (Hmod : (m * 16777215) mod 16777216 = 16777216 - m).
      { symmetry. apply (Z.mod_unique _ _ (m - 1)); lia. }
      rewrite Hq, Hmod.
      replace (2 * (16777216 - m) ?= 16777216) with Lt; [done|].
      symmetry. apply Z.compare_lt_iff. lia. }
    rewrite Hr. destruct (Z.eqb_spec (m - 1) 16777216); [lia|]. f_equal; lia.
Qed.

Lemma times_scale_strict a b :
  8388608 <= fst a < 16777216 -> 8388608 <= fst b < 16777216 ->
  me_lt a b -> me_lt (times_scale a) (times_scale b).
Proof.
  intros Ha Hb. unfold me_lt, times_scale.
  destruct a as [ma ea], b as [mb eb]. cbn [fst snd] in *.
  destruct (Z.eqb_spec ma 8388608), (Z.eqb_spec mb 8388608); cbn [fst snd]; lia.
Qed.

Lemma of_Z_me_strict u1 u2 :
  0 < u1 -> u1 < u2 -> u2 < 2 ^ 24 ->
  me_lt (round24_me (u1 * 2 ^ 24) (-24)) (round24_me (u2 * 2 ^ 24) (-24)).
Proof.
  intros H1 H12 H2. rewrite !round24_me_exact by lia.
  pose proof (Zdigits2_mono u1 u2 H1 ltac:(lia)) as Hd.
  pose proof (Zdigits2_pos u1 H1) as Hd1.
  pose proof (Zdigits2_bounds u2 ltac:(lia)) as [Hl2 _].
  assert (Hd2 : Zdigits2 u2 <= 24).
  { assert (Zdigits2 u2 - 1 < 24); [|lia]. apply (Z.pow_lt_mono_r_iff 2); lia. }
  unfold me_lt. cbn [fst snd].
  destruct (Z.eq_dec (Zdigits2 u1) (Zdigits2 u2)) as [Heq|Hne]; [right|left; lia].
  rewrite Heq. split; [done|].
  apply Z.mul_lt_mono_pos_r; [apply pow2_pos; lia|done].
Qed.

(** X11. Two words that differ below 2^24 give different results, in the
    order of the words: no two of the first 2^24 outputs coincide. *)
Theorem uint32_to_uniform_float_strict (x y : Z) :
  Z.land x 0x7FFFFFFF < Z.land y 0x7FFFFFFF ->
  Z.land y 0x7FFFFFFF < 2 ^ 24 ->
  B32.ltb (uint32_to_uniform_float x) (uint32_to_uniform_float y) = true.
Proof.
  intros Hxy Hy. pose proof (land_low31_range x) as Hx.
  assert (H31 : 2 ^ 24 < 2 ^ 31) by reflexivity.
  destruct (uniform_cases x) as [[Hx0 ->]|[Hx0 ->]],
           (uniform_cases y) as [[Hy0 ->]|[Hy0 ->]]; try lia.
  - reflexivity.
  - pose proof (uniform_me_bounds _ Hx0). pose proof (uniform_me_bounds _ Hy0).
    apply finite_of_ltb; try lia.
    pose proof (of_Z_me_bounds _ Hx0) as [Hm1 _].
    pose proof (of_Z_me_bounds _ Hy0) as [Hm2 _].
    pose proof (of_Z_me_strict (Z.land x 0x7FFFFFFF) (Z.land y 0x7FFFFFFF)
                  ltac:(lia) Hxy Hy) as Hlt.
    unfold uniform_me. cbv zeta in *.
    destruct (round24_me (Z.land x 0x7FFFFFFF * 2 ^ 24) (-24)) as [m1 e1].
    destruct (round24_me (Z.land y 0x7FFFFFFF * 2 ^ 24) (-24)) as [m2 e2].
    cbn [fst snd] in *.
    rewrite !round24_me_times_scale by done.
    by apply times_scale_strict.
Qed.

Lemma uint32_to_uniform_float_strict_witness :
  B32.ltb (uint32_to_uniform_float 0x80000002) (uint32_to_uniform_float 3) = true.
Proof.
  apply (uint32_to_uniform_float_strict 0x80000002 3); vm_compute; reflexivity.
Defined.

Lemma uniform_class (x : Z) :
  SFclassify B32.prec (uint32_to_uniform_float x)
  = (if Z.land x 0x7FFFFFFF =? 0 then PZero else PNormal)
  /\ (uint32_to_uniform_float x = B32.zero <-> Z.land x 0x7FFFFFFF = 0)
  /\ valid_binary B32.prec B32.emax (uint32_to_uniform_float x) = true.
Proof.
  destruct (uniform_cases x) as [[Hx ->]|[Hx ->]].
  - rewrite Hx. cbn. repeat split; done.
  - destruct (Z.eqb_spec (Z.land x 0x7FFFFFFF) 0) as [|_]; [lia|].
    pose proof (uniform_me_bounds _ Hx) as Hb.
    assert (Hd : Z.pos (digits2_pos (Z.to_pos (fst (uniform_me (Z.land x 0x7FFFFFFF))))) = 24).
    { apply digits2_pos_unique. rewrite Z2Pos.id by lia.
      change (2 ^ (24 - 1)) with 8388608. change (2 ^ 24) with 16777216. lia. }
    assert (He : -87 <= snd (uniform_me (Z.land x 0x7FFFFFFF)) <= -24).
    { pose proof (uniform_me_mono (Z.land x 0x7FFFFFFF) 0x7FFFFFFF
                    ltac:(lia) ltac:(lia) ltac:(reflexivity)) as Hle.
      rewrite uniform_me_max in Hle. unfold me_le in Hle. cbn [fst snd] in Hle.
      pose proof (of_Z_me_bounds _ Hx) as [Hm Hr]. cbv zeta in Hm, Hr.
      unfold uniform_me. cbv zeta.
      pose proof (digits_mul_scale _ Hm) as Hdm.
      pose proof (round24_me_bounds
                    (fst (round24_me (Z.land x 0x7FFFFFFF * 2 ^ 24) (-24)) * 16777215)
                    (snd (round24_me (Z.land x 0x7FFFFFFF * 2 ^ 24) (-24)) - 55)
                    ltac:(lia) ltac:(lia)) as [_ Hre].
      unfold uniform_me in Hle. cbv zeta in Hle. lia. }
    unfold finite_of. split; [|split].
    + cbn [SFclassify]. unfold B32.prec. by rewrite Hd.
    + split; [discriminate|lia].
    + cbn [valid_binary]. unfold bounded, canonical_mantissa, fexp, emin, B32.prec, B32.emax.
      rewrite Hd. apply andb_true_intro. split; [apply Z.eqb_eq|apply Z.leb_le]; lia.
Qed.

(** X12. The result is +0 when the low 31 bits are zero and a positive normal
    number otherwise: never a NaN, an infinity, a negative number or a
    subnormal; and it is +0 only then. *)
Theorem uint32_to_uniform_float_class (x : Z) :
  SFclassify B32.prec (uint32_to_uniform_float x)
  = (if Z.land x 0x7FFFFFFF =? 0 then PZero else PNormal)
  /\ (uint32_to_uniform_float x = B32.zero <-> Z.land x 0x7FFFFFFF = 0)
  /\ valid_binary B32.prec B32.emax (uint32_to_uniform_float x) = true.
Proof. apply uniform_class. Qed.

(** ** [normalized_rand_cpu]: the range of the draw *)

(** X13. Whatever word the engine returns, the uniform draw is a [float] in
    [0, 1), at most 1 - 2^-24, and is +0 or a normal number. *)
Theorem normalized_rand_cpu_range
    (engine : Type) (Philox4_32 : Z -> Z -> Z -> engine)
    (engine_call : engine -> Z * engine) (seed offset : Z) :
  let r := normalized_rand_cpu engine Philox4_32 engine_call seed offset in
  B32.leb B32.zero r = true
  /\ B32.ltb r B32.one = true
  /\ B32.leb r (S754_finite false 16777215 (-24)) = true
  /\ (SFclassify B32.prec r = PZero
      \/ SFclassify B32.prec r = PNormal).
Proof.
  cbv zeta. unfold normalized_rand_cpu.
  set (w := fst (engine_call (Philox4_32 seed 0 offset))).
  destruct (uniform_range w) as [H0 H1]. split; [done|]. split; [done|]. split.
  - change (S754_finite false 16777215 (-24)) with (uint32_to_uniform_float 0x7FFFFFFF).
    apply uniform_mono. pose proof (land_low31_range w).
    change (Z.land 0x7FFFFFFF 0x7FFFFFFF) with (2 ^ 31 - 1). lia.
  - destruct (uniform_class w) as [-> _]. destruct (_ =? _); auto.
Qed.

(** ** [atomic_add]: any type, any moment, any state *)

Section AtomicAddMore.
Context {V : Type} `{EqDecision V}.
Variable plus : V -> V -> V.

Lemma completed_bound offset M (ts : list (@thread V)) :
  Forall (thread_ok plus offset M) ts ->
  (sum_list (completed <$> ts) <= length ts * M)%nat.
Proof.
  induction 1 as [|t ts [Hcnt _] _ IH]; cbn; [lia|]. lia.
Qed.

(** X14. At every moment of every interleaving, finished or not, the cell
    holds the initial value plus one [offset] per call whose
    compare-exchange has succeeded: no update is visible twice or in
    part, and each thread is within its [M] calls. *)
Theorem atomic_add_cell_tracks_completed
    (addr : Z) (offset v0 : V) (N M : nat) (m : gmap Z V)
    (sched : list nat) (s : cstate) :
  m !! addr = Some v0 ->
  run_schedule plus addr offset sched (spawn N M m) = Some s ->
  heap s !! addr
  = Some (Nat.iter (total_completed s) (fun v => plus v offset) v0)
  /\ (total_completed s <= N * M)%nat
  /\ Forall (fun t => (completed t + todo t + in_flight (fr t) = M)%nat) (threads s)
  /\ (forall a, a <> addr -> heap s !! a = m !! a).
Proof.
  intros Hm Hrun.
  pose proof (inv_run plus addr offset v0 M sched _ _
                (inv_spawn plus addr offset v0 N M m Hm) Hrun) as [Hheap Hall].
  pose proof (run_schedule_length _ _ _ _ _ _ Hrun) as Hlen.
  cbn [spawn threads] in Hlen. rewrite length_replicate in Hlen.
  split; [done|]. split; [|split].
  - unfold total_completed. rewrite <- Hlen. by eapply completed_bound.
  - eapply Forall_impl; [exact Hall|]. by intros t [Ht _].
  - intros a Ha. by rewrite (run_schedule_other _ _ _ _ _ _ _ Hrun Ha).
Qed.

(** X15. For any type, any [offset] and any initial value, once all the
    calls have returned the cell holds [N * M] additions of [offset] to
    the initial value, applied one after the other. *)
Theorem atomic_add_any_type
    (addr : Z) (offset v0 : V) (N M : nat) (m : gmap Z V)
    (sched : list nat) (s : cstate) :
  m !! addr = Some v0 ->
  run_schedule plus addr offset sched (spawn N M m) = Some s ->
  all_finished s = true ->
  heap s !! addr = Some (Nat.iter (N * M) (fun v => plus v offset) v0)
  /\ Forall (fun t => completed t = M /\ todo t = 0%nat) (threads s).
Proof.
  intros Hm Hrun Hfin.
  destruct (run_schedule_sum plus addr offset v0 N M m sched s Hm Hrun Hfin)
    as [Hheap Hall].
  split; [done|].
  unfold all_finished in Hfin. rewrite forallb_forall in Hfin.
  rewrite Forall_forall in Hall |- *. intros t Ht. split; [by apply Hall|].
  specialize (Hfin t). rewrite <- list_elem_of_In in Hfin. specialize (Hfin Ht).
  unfold thread_finished in Hfin. apply andb_prop in Hfin as [_ Ht0].
  by apply Nat.eqb_eq in Ht0.
Qed.

Lemma solo_schedule_length N M : length (solo_schedule N M) = (N * (4 * M))%nat.
Proof.
  unfold solo_schedule. generalize (4 * M)%nat as k. intros k. generalize 0%nat as j.
  induction N as [|N IH]; intros j; [done|].
  cbn [seq flat_map]. rewrite length_app, length_replicate, IH. lia.
Qed.

(** X16. The threads can always finish: run one after the other, each call
    takes its four steps and all [N * M] additions are in the cell. *)
Theorem atomic_add_sequential_run
    (addr : Z) (offset v0 : V) (N M : nat) (m : gmap Z V) :
  m !! addr = Some v0 ->
  exists s,
    run_schedule plus addr offset (solo_schedule N M) (spawn N M m) = Some s
    /\ all_finished s = true
    /\ heap s !! addr = Some (Nat.iter (N * M) (fun v => plus v offset) v0)
    /\ length (solo_schedule N M) = (4 * (N * M))%nat.
Proof.
  intros Hm.
  destruct (solo_schedule_finishes plus addr offset N M m v0 Hm) as (s & Hrun & Hfin).
  exists s. split; [done|]. split; [done|]. split.
  - by destruct (run_schedule_sum plus addr offset v0 N M m _ s Hm Hrun Hfin).
  - rewrite solo_schedule_length. lia.
Qed.

(** X17. From any point of a call, a thread that is left alone returns within
    five steps, after at most two compare-exchanges and one pass through
    the loop body, and has added [offset] once to what the cell held. *)
Theorem atomic_add_obstruction_free
    (addr : Z) (offset v : V) (m : gmap Z V) (f : frame) (st : stats) :
  m !! addr = Some v -> frame_ok plus offset f -> is_returned f = false ->
  exists st',
    atomic_add_from plus 6 addr offset m f st
    = Some (<[addr := plus v offset]> m, st')
    /\ (cas_calls st' <= cas_calls st + 2)%nat
    /\ (loop_entries st' <= loop_entries st + 1)%nat.
Proof.
  intros Hv Hok Hr. destruct st as [c l].
  destruct f as [|e|e d|e d|e d|]; [| | | | |done]; cbn in Hok; try subst d;
    repeat first [rewrite Hv | rewrite decide_True by done | progress cbn];
    try (destruct (decide (v = e)) as [->|Hne];
         repeat first [rewrite Hv | rewrite decide_True by done | progress cbn]);
    (eexists; split; [done|]; cbn; lia).
Qed.

End AtomicAddMore.

Lemma iter_plus_u32 (n : nat) (offset v0 : Z) :
  Nat.iter n (fun v => plus_u32 v offset) (v0 mod 2 ^ 32)
  = (v0 + Z.of_nat n * offset) mod 2 ^ 32.
Proof.
  induction n as [|n IH]; [cbn; by rewrite Z.add_0_r|].
  rewrite Nat.iter_succ, IH. unfold plus_u32.
  rewrite Zplus_mod_idemp_l. f_equal. lia.
Qed.

(** X18. [atomic_add<uint32_t>]: the counter ends at the initial value plus
    [N * M * offset], modulo 2^32. *)
Theorem atomic_add_uint32
    (addr v0 offset : Z) (N M : nat) (m : gmap Z Z) (sched : list nat) (s : cstate) :
  0 <= v0 < 2 ^ 32 ->
  m !! addr = Some v0 ->
  run_schedule plus_u32 addr offset sched (spawn N M m) = Some s ->
  all_finished s = true ->
  heap s !! addr = Some ((v0 + Z.of_nat (N * M) * offset) mod 2 ^ 32).
Proof.
  intros Hv0 Hm Hrun Hfin.
  destruct (run_schedule_sum plus_u32 addr offset v0 N M m sched s Hm Hrun Hfin)
    as [-> _].
  f_equal. rewrite <- iter_plus_u32. by rewrite Z.mod_small.
Qed.

(** Thread 0 has returned and thread 1 has just failed its
    compare-exchange: the cell holds the one completed addition. *)
Lemma atomic_add_cell_tracks_completed_witness :
  exists s,
    run_schedule B32.add 0 B32.one [0; 1; 0; 1; 0; 1; 0; 1]%nat
      (spawn 2 1 {[ 0 := B32.zero ]}) = Some s
    /\ all_finished s = false
    /\ total_completed s = 1%nat
    /\ heap s !! 0 = Some (Nat.iter (total_completed s) (fun v => B32.add v B32.one) B32.zero).
Proof.
  destruct (run_schedule B32.add 0 B32.one [0; 1; 0; 1; 0; 1; 0; 1]%nat
              (spawn 2 1 {[ 0 := B32.zero ]})) as [s|] eqn:Hrun;
    [|vm_compute in Hrun; discriminate].
  exists s. split; [reflexivity|].
  split; [vm_compute in Hrun; injection Hrun as <-; reflexivity|].
  split; [vm_compute in Hrun; injection Hrun as <-; reflexivity|].
  exact (proj1 (atomic_add_cell_tracks_completed B32.add 0 B32.one B32.zero 2 1
                  {[ 0 := B32.zero ]} _ s eq_refl Hrun)).
Defined.

Lemma atomic_add_any_type_witness :
  exists s,
    run_schedule plus_u32 8 2 [0; 1; 0; 1; 0; 1; 0; 1; 1; 1; 1]%nat
      (spawn 2 1 {[ 8 := 40 ]}) = Some s
    /\ heap s !! 8 = Some (Nat.iter (2 * 1) (fun v => plus_u32 v 2) 40).
Proof.
  destruct (run_schedule plus_u32 8 2 [0; 1; 0; 1; 0; 1; 0; 1; 1; 1; 1]%nat
              (spawn 2 1 {[ 8 := 40 ]})) as [s|] eqn:Hrun;
    [|vm_compute in Hrun; discriminate].
  assert (Hfin : all_finished s = true).
  { vm_compute in Hrun. injection Hrun as <-. reflexivity. }
  exists s. split; [reflexivity|].
  exact (proj1 (atomic_add_any_type plus_u32 8 2 40 2 1 {[ 8 := 40 ]} _ s
                  eq_refl Hrun Hfin)).
Defined.

Lemma atomic_add_sequential_run_witness :
  exists s,
    run_schedule plus_u32 8 5 (solo_schedule 3 2) (spawn 3 2 {[ 8 := 1 ]}) = Some s
    /\ all_finished s = true
    /\ heap s !! 8 = Some (Nat.iter (3 * 2) (fun v => plus_u32 v 5) 1)
    /\ length (solo_schedule 3 2) = (4 * (3 * 2))%nat.
Proof. apply (atomic_add_sequential_run plus_u32 8 5 1 3 2 {[ 8 := 1 ]}). reflexivity. Defined.

(** A thread stopped at its compare-exchange with the stale value 5
    while the cell holds 9. *)
Lemma atomic_add_obstruction_free_witness :
  exists st',
    atomic_add_from plus_u32 6 8 1 {[ 8 := 9 ]} (AtCas 5 6)
      {| cas_calls := 1; loop_entries := 0 |}
    = Some (<[8 := plus_u32 9 1]> {[ 8 := 9 ]}, st')
    /\ (cas_calls st' <= 1 + 2)%nat
    /\ (loop_entries st' <= 0 + 1)%nat.
Proof.
  apply (atomic_add_obstruction_free plus_u32 8 1 9 {[ 8 := 9 ]} (AtCas 5 6)
           {| cas_calls := 1; loop_entries := 0 |}); reflexivity.
Defined.

(** Two threads add 0xFFFFFFFF once each to 1: the counter wraps. *)
Lemma atomic_add_uint32_witness :
  exists s,
    run_schedule plus_u32 8 0xFFFFFFFF [0; 1; 0; 1; 0; 1; 0; 1; 1; 1; 1]%nat
      (spawn 2 1 {[ 8 := 1 ]}) = Some s
    /\ heap s !! 8 = Some ((1 + Z.of_nat (2 * 1) * 0xFFFFFFFF) mod 2 ^ 32).
Proof.
  destruct (run_schedule plus_u32 8 0xFFFFFFFF [0; 1; 0; 1; 0; 1; 0; 1; 1; 1; 1]%nat
              (spawn 2 1 {[ 8 := 1 ]})) as [s|] eqn:Hrun;
    [|vm_compute in Hrun; discriminate].
  assert (Hfin : all_finished s = true).
  { vm_compute in Hrun. injection Hrun as <-. reflexivity. }
  exists s. split; [reflexivity|].
  exact (atomic_add_uint32 8 1 0xFFFFFFFF 2 1 {[ 8 := 1 ]} _ s
           ltac:(cbn; lia) eq_refl Hrun Hfin).
Defined.

(** ** [to_float_mask]: what the lanes hold *)

Lemma binary_round_aux_opp prec emax m e l :
  binary_round_aux prec emax true m e l
  = SFopp (binary_round_aux prec emax false m e l).
Proof.
  unfold binary_round_aux.
  destruct (shr_fexp prec emax m e l) as [mrs' e'].
  destruct (shr_fexp prec emax _ e' loc_Exact) as [mrs'' e''].
  destruct (shr_m mrs''); [done| |done].
  by destruct (_ <=? _).
Qed.

(** The conversion of an integer is odd. *)
Lemma of_Z_opp p : B32.of_Z (Z.neg p) = SFopp (B32.of_Z (Z.pos p)).
Proof.
  unfold B32.of_Z, binary_normalize, binary_round.
  destruct (shl_align p 0 _) as [mz ez]. apply binary_round_aux_opp.
Qed.

Lemma of_Z_pos_finite p :
  Z.pos p < 2 ^ 31 ->
  exists m e, B32.of_Z (Z.pos p) = S754_finite false m e.
Proof.
  intros Hp. assert (H127 : 2 ^ 31 < 2 ^ 127) by reflexivity.
  rewrite of_Z_pos by lia. unfold finite_of. eauto.
Qed.

(** The conversion of an [int]: zero only for 0, the sign bit set
    exactly for a negative lane. *)
Lemma of_Z_int32_sign z :
  - 2 ^ 31 <= z < 2 ^ 31 ->
  truthy_float (B32.of_Z z) = truthy z
  /\ sign_bit (B32.of_Z z) = Some (z <? 0).
Proof.
  intros Hz. destruct z as [|p|p]; [done| |].
  - destruct (of_Z_pos_finite p ltac:(lia)) as (m & e & ->). done.
  - rewrite of_Z_opp.
    destruct (Z.eq_dec (Z.pos p) (2 ^ 31)) as [Heq|Hne].
    + injection Heq as ->. done.
    + destruct (of_Z_pos_finite p ltac:(lia)) as (m & e & ->). done.
Qed.

(** An integer below 2^24 in magnitude is converted exactly. *)
Lemma of_Z_exact z :
  Z.abs z < 2 ^ 24 -> units 24 128 (B32.of_Z z) = z * 2 ^ 149.
Proof.
  intros Hz.
  assert (Hpos : forall p, Z.pos p < 2 ^ 24 ->
            units 24 128 (B32.of_Z (Z.pos p)) = Z.pos p * 2 ^ 149).
  { intros p Hp. assert (H127 : 2 ^ 24 < 2 ^ 127) by reflexivity.
    rewrite of_Z_pos, round24_me_exact by lia.
    pose proof (Zdigits2_pos (Z.pos p) ltac:(lia)) as Hd0.
    pose proof (Zdigits2_bounds (Z.pos p) ltac:(lia)) as [Hl _].
    assert (Hd : Zdigits2 (Z.pos p) <= 24).
    { assert (Zdigits2 (Z.pos p) - 1 < 24); [|lia]. apply (Z.pow_lt_mono_r_iff 2); lia. }
    set (d := Zdigits2 (Z.pos p)) in *.
    pose proof (pow2_pos (24 - d) ltac:(lia)).
    unfold finite_of, units, emin. cbn [fst snd cond_Zopp].
    rewrite Z2Pos.id by lia.
    replace (d - 24 - (3 - 128 - 24)) with (d - 24 + 149) by lia.
    rewrite <- Z.mul_assoc, <- Z.pow_add_r by lia. do 2 f_equal. lia. }
  destruct z as [|p|p]; [done|by apply Hpos|].
  rewrite of_Z_opp. specialize (Hpos p ltac:(lia)).
  destruct (B32.of_Z (Z.pos p)) as [| | |s m e]; cbn in *; try lia.
  destruct s; cbn in *; lia.
Qed.

(** X19. On a vector that has the lanes of a [Vectorized<SRC>], the generic
    template returns exactly when [SRC] has the lane count of [float]
    (otherwise its assertion fails), and then every lane of the result
    is 0.0f or 4294967296.0f: numerically non-zero where the source is
    true, but never the all-ones pattern. *)
Theorem to_float_mask_lanes {SRC} (cap : cpu_capability) (sizeof_src : nat)
    (test : SRC -> bool) (src : list SRC) :
  length src = vectorized_size cap sizeof_src ->
  (is_Some (to_float_mask cap sizeof_src test src)
   <-> vectorized_size cap 4 = vectorized_size cap sizeof_src)
  /\ (forall lanes, to_float_mask cap sizeof_src test src = Some lanes ->
        length lanes = vectorized_size cap 4
        /\ truthy_float <$> lanes = test <$> src
        /\ lane_bits lanes = (fun x => if test x then 0x4F800000 else 0) <$> src).
Proof.
  intros Hlen. split.
  - split.
    + intros [lanes Hl]. unfold to_float_mask in Hl. by case_decide.
    + intros Hsz. rewrite to_float_mask_spec by congruence. eauto.
  - intros lanes Hl.
    assert (Hsz : vectorized_size cap 4 = vectorized_size cap sizeof_src).
    { unfold to_float_mask in Hl. by case_decide. }
    rewrite to_float_mask_spec in Hl by congruence. injection Hl as <-.
    split; [rewrite length_fmap; congruence|]. unfold lane_bits. split.
    + rewrite <- list_fmap_compose. apply list_fmap_ext. intros i x _. cbn.
      by destruct (test x).
    + rewrite <- list_fmap_compose. apply list_fmap_ext. intros i x _. cbn.
      by destruct (test x).
Qed.

Lemma to_float_mask_lanes_witness :
  (is_Some (to_float_mask AVX512 2 truthy (replicate 32 1))
   <-> vectorized_size AVX512 4 = vectorized_size AVX512 2)
  /\ (forall lanes, to_float_mask AVX512 2 truthy (replicate 32 1) = Some lanes ->
        length lanes = vectorized_size AVX512 4
        /\ truthy_float <$> lanes = truthy <$> replicate 32 1
        /\ lane_bits lanes
           = (fun x => if truthy x then 0x4F800000 else 0) <$> replicate 32 1).
Proof. apply (to_float_mask_lanes AVX512 2 truthy (replicate 32 1)). reflexivity. Defined.

(** X20. The [int] specialization keeps what a test of the sign bit or a
    comparison with zero sees: a lane of the result is zero exactly when
    the [int] is 0 and has its sign bit set exactly when the [int] is
    negative. *)
Theorem to_float_mask_int_sign (src : list Z) :
  Forall (fun z => - 2 ^ 31 <= z < 2 ^ 31) src ->
  length (to_float_mask_int src) = length src
  /\ truthy_float <$> to_float_mask_int src = truthy <$> src
  /\ sign_bit <$> to_float_mask_int src = (fun z => Some (z <? 0)) <$> src.
Proof.
  intros Hsrc. unfold to_float_mask_int. split; [by rewrite length_fmap|].
  rewrite <- !list_fmap_compose.
  induction Hsrc as [|z src Hz _ [IH1 IH2]]; [done|].
  destruct (of_Z_int32_sign z Hz) as [Ht Hs].
  cbn. rewrite Ht, Hs. split; f_equal; done.
Qed.

Lemma to_float_mask_int_sign_witness :
  length (to_float_mask_int [-1; 0; 7]) = length [-1; 0; 7]
  /\ truthy_float <$> to_float_mask_int [-1; 0; 7] = truthy <$> [-1; 0; 7]
  /\ sign_bit <$> to_float_mask_int [-1; 0; 7]
     = (fun z => Some (z <? 0)) <$> [-1; 0; 7].
Proof.
  apply (to_float_mask_int_sign [-1; 0; 7]).
  repeat constructor; cbn; lia.
Defined.

(** X21. The [int] specialization is a conversion of values: a lane below
    2^24 in magnitude comes out as the same number. *)
Theorem to_float_mask_int_exact (src : list Z) :
  Forall (fun z => Z.abs z < 2 ^ 24) src ->
  units 24 128 <$> to_float_mask_int src = (fun z => z * 2 ^ 149) <$> src.
Proof.
  intros Hsrc. unfold to_float_mask_int. rewrite <- list_fmap_compose.
  induction Hsrc as [|z src Hz _ IH]; [done|].
  cbn. rewrite of_Z_exact by done. by f_equal.
Qed.

Lemma to_float_mask_int_exact_witness :
  units 24 128 <$> to_float_mask_int [-1; 0; 5]
  = (fun z => z * 2 ^ 149) <$> [-1; 0; 5].
Proof.
  apply (to_float_mask_int_exact [-1; 0; 5]).
  repeat constructor; cbn; lia.
Defined.
